(** * memory_bram: mapping $mem cells to block rams

    A shallow embedding of [passes/memory/memory_bram.cc]: the rules
    model ([rules_t]), the port assignment and the grid stitching of
    [replace_cell], and the rule walk of [handle_cell], followed by the
    properties of the specification that were checked against them.

    Conventions.
    - A C++ [int] is a [Z].  The model describes the runs in which no
      [int] computation overflows (signed overflow is undefined in C++, so
      the source fixes no behaviour there); [/] and [%] are the truncating
      [Z.quot] and [Z.rem], and a zero divisor stops the run.
    - Whatever stops the process (an index outside a signal vector, a
      failed [log_assert], a zero divisor, [log_error]) is an [Error] of
      the [result] monad.
    - Loops whose bound is not a plain counter (the retry of the read
      ports, the grid loops) take a [fuel]; [None] means the fuel ran
      out, and the theorems show how much fuel is enough.
    - The netlist library (kernel/rtlil: SigBit, SigSpec, Cell, Module) is
      not part of the pass.  Signal vectors are lists of bits; the module
      is the sequence of calls the pass makes on it.
    - A [dict] or [pool] that is only looked up is a [gmap] or [gset]; the
      limits of a rule, which are walked in order until one fails, are an
      association list in iteration order.  Where the pass iterates over
      a [gmap] ([clocks], [clock_polarities]) the order of the resulting
      calls is that of [map_to_list]; no property below depends on it.
    - [log] output is kept for [handle_cell], where it is the only trace
      of which rules were tried; the port-level diagnostics of
      [replace_cell] do not influence control flow and are dropped. *)

From Stdlib Require Import ZArith Ascii String List Lia.
From stdpp Require Import base option list gmap strings pretty sorting.

Open Scope Z_scope.

(** ** Errors *)

Inductive failure :=
| OutOfRange                                   (* index or slice outside a SigSpec *)
| DivisionByZero                               (* [/] or [%] with a zero divisor *)
| AssertionFailed                              (* log_assert *)
| NoBramDescription (name : string)            (* log_error in handle_cell *)
| UnknownProperty (key : string) (name : string). (* log_error in handle_cell *)

Inductive result (A : Type) :=
| Ok (a : A)
| Error (e : failure).

Arguments Ok {A} a.
Arguments Error {A} e.

#[global] Instance result_ret : MRet result := fun A a => Ok a.

#[global] Instance result_bind : MBind result := fun A B f m =>
  match m with
  | Ok a => f a
  | Error e => Error e
  end.

Definition int_div (a b : Z) : result Z :=
  if decide (b = 0) then Error DivisionByZero else Ok (Z.quot a b).

Definition int_rem (a b : Z) : result Z :=
  if decide (b = 0) then Error DivisionByZero else Ok (Z.rem a b).

(** ** The netlist library, as far as the pass uses it *)

Module RTLIL.

Inductive State := S0 | S1 | Sx | Sz | Sa | Sm.

(** A wire is either one the design already has, or the result of the
    n-th NEW_ID construction of this pass. *)
Inductive Wire :=
| UserWire (name : string)
| AutoWire (idx : Z).

Inductive SigBit :=
| SigConst (data : State)
| SigWire (wire : Wire) (offset : Z).

#[global] Instance State_eq_dec : EqDecision State.
Proof. solve_decision. Defined.

#[global] Instance Wire_eq_dec : EqDecision Wire.
Proof. solve_decision. Defined.

#[global] Instance SigBit_eq_dec : EqDecision SigBit.
Proof. solve_decision. Defined.

Abbreviation SigSpec := (list SigBit).

(** [SigBit()] *)
Definition SigBit_default : SigBit := SigConst S0.

(** [bit.wire == nullptr] *)
Definition is_const (b : SigBit) : bool :=
  match b with
  | SigConst _ => true
  | SigWire _ _ => false
  end.

(** [SigSpec(const)] for a parameter value *)
Definition sig_of_const (c : list State) : SigSpec := SigConst <$> c.

(** Modelled from the spec: kernel/rtlil is not under src/; signal vectors
    support indexing, extract, zero-extension and append.  [sig[i]]: *)
Definition sig_at (s : SigSpec) (i : Z) : result SigBit :=
  if decide (i < 0) then Error OutOfRange
  else match s !! Z.to_nat i with
       | Some b => Ok b
       | None => Error OutOfRange
       end.

(** Modelled from the spec: [sig.extract(offset, length)], the slice
    [offset .. offset+length) of the vector. *)
Definition extract (s : SigSpec) (offset length : Z) : result SigSpec :=
  if decide (0 <= offset /\ 0 <= length /\ offset + length <= Z.of_nat (List.length s))
  then Ok (take (Z.to_nat length) (drop (Z.to_nat offset) s))
  else Error OutOfRange.

(** Modelled from the spec: [sig.extend_u0(width)], zero-extension to
    [width] bits (a longer vector is cut to [width]). *)
Definition extend_u0 (s : SigSpec) (width : Z) : SigSpec :=
  take (Z.to_nat width) s
    ++ replicate (Z.to_nat width - List.length s)%nat (SigConst S0).

(** Modelled from the spec: [sig.remove(i)], dropping bit [i]. *)
Definition sig_remove (s : SigSpec) (i : nat) : SigSpec :=
  take i s ++ drop (Datatypes.S i) s.

(** [SigSpec(val, width)]: the low [width] bits of an integer, LSB first. *)
Definition sig_of_int (val width : Z) : SigSpec :=
  (fun i => SigConst (if Z.testbit val i then S1 else S0)) <$> seqZ 0 width.

(** [SigSpec(State, width)] *)
Definition sig_of_state (st : State) (width : Z) : SigSpec :=
  replicate (Z.to_nat width) (SigConst st).

(** All bits of a fresh wire of the given width. *)
Definition sig_of_wire (w : Wire) (width : Z) : SigSpec :=
  SigWire w <$> seqZ 0 width.

(** Modelled from the spec: the [Module] of kernel/rtlil is not under
    src/.  The module is an external collaborator of the pass, so it is
    kept as the sequence of calls made on it, in order, together with the
    NEW_ID counter.  [addCell] stands for
    [addCell(uniquify(name), type)] and carries the name asked for; a cell
    is referred to by that name. *)
Inductive call :=
| addCell (name : string) (type : string)
| setPort (cell : string) (port : string) (sig : SigSpec)
| setParam (cell : string) (param : string) (value : bool)
| addWire (id : Z) (width : Z)
| Eq (id : Z) (a b : SigSpec)
| Mux (id : Z) (a b s : SigSpec)
| addDff (id : Z) (clk : SigBit) (d q : SigSpec) (clk_polarity : option bool)
| addPmux (id : Z) (a b s y : SigSpec)
| connect (lhs rhs : SigSpec)
| remove (cell : string).

Record Module := {
  calls : list call;
  autoidx : Z
}.

Definition emit (c : call) (m : Module) : Module :=
  {| calls := calls m ++ [c]; autoidx := autoidx m |}.

(** NEW_ID *)
Definition new_id (m : Module) : Z * Module :=
  (autoidx m, {| calls := calls m; autoidx := autoidx m + 1 |}).

(** The $mem cell: its name, parameters and ports. *)
Record Cell := {
  name : string;
  SIZE : Z;
  ABITS : Z;
  WIDTH : Z;
  WR_PORTS : Z;
  WR_CLK_ENABLE : list State;
  WR_CLK_POLARITY : list State;
  WR_EN : SigSpec;
  WR_CLK : SigSpec;
  WR_DATA : SigSpec;
  WR_ADDR : SigSpec;
  RD_PORTS : Z;
  RD_CLK_ENABLE : list State;
  RD_CLK_POLARITY : list State;
  RD_TRANSPARENT : list State;
  RD_CLK : SigSpec;
  RD_DATA : SigSpec;
  RD_ADDR : SigSpec
}.

End RTLIL.

Import RTLIL.

(** ** rules_t *)

Record portinfo_t := {
  group : Z;
  index : Z;
  dupidx : Z;
  wrmode : Z;
  enable : Z;
  transp : Z;
  clocks : Z;
  clkpol : Z;
  sig_clock : SigBit;
  sig_addr : SigSpec;
  sig_data : SigSpec;
  sig_en : SigSpec;
  effective_clkpol : option bool;   (* [None]: never assigned *)
  mapped_port : Z
}.

Record bram_t := {
  b_name : string;
  b_groups : Z;
  b_abits : Z;
  b_dbits : Z;
  b_init : Z;
  b_ports : list Z;
  b_wrmode : list Z;
  b_enable : list Z;
  b_transp : list Z;
  b_clocks : list Z;
  b_clkpol : list Z
}.

(** [i < GetSize(v) ? v[i] : 0] *)
Definition group_attr (v : list Z) (i : nat) : Z := default 0 (v !! i).

Definition make_portinfo (bram : bram_t) (i : nat) (j : Z) : portinfo_t :=
  {| group := Z.of_nat i;
     index := j;
     dupidx := 0;
     wrmode := group_attr (b_wrmode bram) i;
     enable := group_attr (b_enable bram) i;
     transp := group_attr (b_transp bram) i;
     clocks := group_attr (b_clocks bram) i;
     clkpol := group_attr (b_clkpol bram) i;
     sig_clock := SigBit_default;
     sig_addr := [];
     sig_data := [];
     sig_en := [];
     effective_clkpol := None;
     mapped_port := -1 |}.

(** The outer loop runs over [i < groups && i < GetSize(ports)], the inner
    one over [j < ports[i]]. *)
Definition make_portinfos (bram : bram_t) : list portinfo_t :=
  i ← seq 0 (Nat.min (Z.to_nat (b_groups bram)) (List.length (b_ports bram)));
  j ← seqZ 0 (group_attr (b_ports bram) i);
  [make_portinfo bram i j].

(** The limits of a match rule, kept in the order in which the dict is
    iterated. *)
Record match_t := {
  m_name : string;
  min_limits : list (string * Z);
  max_limits : list (string * Z)
}.

Record rules_t := {
  brams : gmap string bram_t;
  matches : list match_t
}.

(** ** replace_cell: the port assignment *)

(** What the first loop of [replace_cell] collects from the PortInfos. *)
Record prescan_t := {
  clocks_wr_ports : gset Z;
  clkpol_wr_ports : gset Z;
  clocks_max : Z;
  clkpol_max : Z
}.

Definition prescan_step (ps : prescan_t) (pi : portinfo_t) : prescan_t :=
  {| clocks_wr_ports :=
       if decide (wrmode pi = 0) then clocks_wr_ports ps
       else {[clocks pi]} ∪ clocks_wr_ports ps;
     clkpol_wr_ports :=
       if decide (wrmode pi = 0) then clkpol_wr_ports ps
       else if decide (clkpol pi > 1) then {[clkpol pi]} ∪ clkpol_wr_ports ps
       else clkpol_wr_ports ps;
     clocks_max := Z.max (clocks_max ps) (clocks pi);
     clkpol_max := Z.max (clkpol_max ps) (clkpol pi) |}.

Definition prescan (portinfos : list portinfo_t) : prescan_t :=
  foldl prescan_step
    {| clocks_wr_ports := ∅; clkpol_wr_ports := ∅; clocks_max := 0; clkpol_max := 0 |}
    portinfos.

(** The mutable locals of [replace_cell] during the assignment. *)
Record assignment := {
  portinfos : list portinfo_t;
  dup_count : Z;
  clock_domains : gmap Z (SigBit * bool);
  clock_polarities : gmap Z bool;
  grow_read_ports_cursor : Z;
  try_growing_more_read_ports : bool
}.

(** The clock checks, written twice in the source (write loop and read
    loop) with the same text: [false] is a jump to [skip_bram_?port]. *)
Definition clock_compatible (clken : bool) (clkdom : SigBit * bool) (clkpol_ : bool)
    (cd : gmap Z (SigBit * bool)) (cp : gmap Z bool) (pi : portinfo_t) : bool :=
  if clken then
    if decide (clocks pi = 0) then false
    else if bool_decide (is_Some (cd !! clocks pi) /\ cd !! clocks pi <> Some clkdom) then false
    else if bool_decide (is_Some (cp !! clkpol pi) /\ cp !! clkpol pi <> Some clkpol_) then false
    else true
  else
    if decide (clocks pi <> 0) then false else true.

(** [pi.mapped_port = ...; if (clken) { pi.sig_clock = ...; pi.effective_clkpol = ... }
    pi.sig_en = ...; pi.sig_addr = ...; pi.sig_data = ...] *)
Definition bind_port (pi : portinfo_t) (cell_port_i : Z) (clken : bool)
    (clkdom : SigBit * bool) (en addr data : SigSpec) : portinfo_t :=
  {| group := group pi; index := index pi; dupidx := dupidx pi;
     wrmode := wrmode pi; enable := enable pi; transp := transp pi;
     clocks := clocks pi; clkpol := clkpol pi;
     sig_clock := if clken then clkdom.1 else sig_clock pi;
     sig_addr := addr;
     sig_data := data;
     sig_en := en;
     effective_clkpol := if clken then Some clkdom.2 else effective_clkpol pi;
     mapped_port := cell_port_i |}.

(** The enable scan of the write loop, from bit [i] on with [n] bits to go.
    [None] is the jump to [skip_bram_wport] ("incompatible enable
    structure"). *)
Fixpoint enable_scan (bram : bram_t) (pi : portinfo_t) (wr_en : SigSpec)
    (cell_port_i mem_width : Z) (n : nat) (i : Z)
    (last_en_bit : SigBit) (sig_en : SigSpec) : result (option SigSpec) :=
  match n with
  | O => Ok (Some sig_en)
  | Datatypes.S n' =>
      lane_start ←
        (if decide (enable pi = 0) then Ok false
         else d ← int_div (b_dbits bram) (enable pi);
              r ← int_rem i d;
              Ok (bool_decide (r = 0)));
      st ←
        (if lane_start : bool then
           b ← sig_at wr_en (i + cell_port_i * mem_width);
           Ok (b, sig_en ++ [b])
         else Ok (last_en_bit, sig_en));
      b ← sig_at wr_en (i + cell_port_i * mem_width);
      if decide (st.1 <> b) then Ok None
      else enable_scan bram pi wr_en cell_port_i mem_width n' (i + 1) st.1 st.2
  end.

(** One PortInfo tried for write port [cell_port_i]: [None] is
    [continue], [Some pi'] is the PortInfo as bound at [goto mapped_wr_port]. *)
Definition try_wr_port (cell : Cell) (bram : bram_t) (cell_port_i : Z)
    (clken : bool) (clkdom : SigBit * bool) (clkpol_ : bool)
    (cd : gmap Z (SigBit * bool)) (cp : gmap Z bool)
    (pi : portinfo_t) : result (option portinfo_t) :=
  if decide (wrmode pi <> 1) then Ok None
  else if negb (clock_compatible clken clkdom clkpol_ cd cp pi) then Ok None
  else
    en ← enable_scan bram pi (WR_EN cell) cell_port_i (WIDTH cell)
           (Z.to_nat (WIDTH cell)) 0 (SigConst S1) [];
    match en with
    | None => Ok None
    | Some sig_en_ =>
        addr ← extract (WR_ADDR cell) (cell_port_i * ABITS cell) (ABITS cell);
        data ← extract (WR_DATA cell) (cell_port_i * WIDTH cell) (WIDTH cell);
        Ok (Some (bind_port pi cell_port_i clken clkdom sig_en_ addr data))
    end.

(** One PortInfo tried for read port [cell_port_i]. *)
Definition try_rd_port (cell : Cell) (cell_port_i : Z)
    (clken : bool) (clkdom : SigBit * bool) (clkpol_ : bool)
    (cd : gmap Z (SigBit * bool)) (cp : gmap Z bool)
    (pi : portinfo_t) : result (option portinfo_t) :=
  if decide (wrmode pi <> 0 \/ mapped_port pi >= 0) then Ok None
  else if negb (clock_compatible clken clkdom clkpol_ cd cp pi) then Ok None
  else
    addr ← extract (RD_ADDR cell) (cell_port_i * ABITS cell) (ABITS cell);
    data ← extract (RD_DATA cell) (cell_port_i * WIDTH cell) (WIDTH cell);
    Ok (Some (bind_port pi cell_port_i clken clkdom (sig_en pi) addr data)).

(** The scan [for (; bram_port_i < GetSize(portinfos); bram_port_i++)] over
    the PortInfos from position [bram_port_i] on: the first one that
    [try_port] binds, with its position. *)
Fixpoint find_port (try_port : portinfo_t -> result (option portinfo_t))
    (rest : list portinfo_t) (bram_port_i : nat) : result (option (nat * portinfo_t)) :=
  match rest with
  | [] => Ok None
  | pi :: rest' =>
      r ← try_port pi;
      match r with
      | Some pi' => Ok (Some (bram_port_i, pi'))
      | None => find_port try_port rest' (Datatypes.S bram_port_i)
      end
  end.

(** [clkdom] of a logical port. *)
Definition port_clkdom (clken : bool) (clksig : SigBit) (clkpol_ : bool) : SigBit * bool :=
  if clken then (clksig, clkpol_) else (SigConst S1, false).

(** [portinfos[k] = pi'] and, if [clken], the two cohort maps. *)
Definition commit_port (st : assignment) (k : nat) (pi' : portinfo_t)
    (clken : bool) (clkdom : SigBit * bool) (cursor : Z) (try_growing : bool) : assignment :=
  {| portinfos := <[k := pi']> (portinfos st);
     dup_count := dup_count st;
     clock_domains :=
       if clken then <[clocks pi' := clkdom]> (clock_domains st) else clock_domains st;
     clock_polarities :=
       if clken then <[clkpol pi' := clkdom.2]> (clock_polarities st) else clock_polarities st;
     grow_read_ports_cursor := cursor;
     try_growing_more_read_ports := try_growing |}.

(** The write-port loop, [n] ports to go; the cursor [bram_port_i] is not
    reset between ports.  [None] is [return false]. *)
Fixpoint write_ports (cell : Cell) (bram : bram_t) (n : nat) (cell_port_i : Z)
    (bram_port_i : nat) (st : assignment) : result (option assignment) :=
  match n with
  | O => Ok (Some st)
  | Datatypes.S n' =>
      en ← sig_at (extend_u0 (sig_of_const (WR_CLK_ENABLE cell)) (WR_PORTS cell)) cell_port_i;
      pol ← sig_at (extend_u0 (sig_of_const (WR_CLK_POLARITY cell)) (WR_PORTS cell)) cell_port_i;
      clksig ← sig_at (WR_CLK cell) cell_port_i;
      let clken := bool_decide (en = SigConst S1) in
      let clkpol_ := bool_decide (pol = SigConst S1) in
      let clkdom := port_clkdom clken clksig clkpol_ in
      r ← find_port
            (try_wr_port cell bram cell_port_i clken clkdom clkpol_
               (clock_domains st) (clock_polarities st))
            (drop bram_port_i (portinfos st)) bram_port_i;
      match r with
      | None => Ok None
      | Some (k, pi') =>
          write_ports cell bram n' (cell_port_i + 1) (Datatypes.S k)
            (commit_port st k pi' clken clkdom
               (grow_read_ports_cursor st) (try_growing_more_read_ports st))
      end
  end.

(** How one pass over the read ports ends: all mapped, or read port
    [cell_port_i] found no PortInfo. *)
Inductive read_round :=
| AllMapped (st : assignment)
| FailedAt (cell_port_i : Z) (st : assignment).

(** The read-port loop, [n] ports to go; every port scans the PortInfos
    from position 0. *)
Fixpoint read_ports (cell : Cell) (n : nat) (cell_port_i : Z)
    (st : assignment) : result read_round :=
  match n with
  | O => Ok (AllMapped st)
  | Datatypes.S n' =>
      en ← sig_at (extend_u0 (sig_of_const (RD_CLK_ENABLE cell)) (RD_PORTS cell)) cell_port_i;
      pol ← sig_at (extend_u0 (sig_of_const (RD_CLK_POLARITY cell)) (RD_PORTS cell)) cell_port_i;
      clksig ← sig_at (RD_CLK cell) cell_port_i;
      let clken := bool_decide (en = SigConst S1) in
      let clkpol_ := bool_decide (pol = SigConst S1) in
      let clkdom := port_clkdom clken clksig clkpol_ in
      r ← find_port
            (try_rd_port cell cell_port_i clken clkdom clkpol_
               (clock_domains st) (clock_polarities st))
            (portinfos st) 0;
      match r with
      | None => Ok (FailedAt cell_port_i st)
      | Some (k, pi') =>
          let grown := bool_decide (grow_read_ports_cursor st < cell_port_i) in
          read_ports cell n' (cell_port_i + 1)
            (commit_port st k pi' clken clkdom
               (if grown then cell_port_i else grow_read_ports_cursor st)
               (if grown then true else try_growing_more_read_ports st))
      end
  end.

(** The block at label [grow_read_ports]. *)
Definition clear_binding (pi : portinfo_t) : portinfo_t :=
  if decide (wrmode pi = 0) then
    {| group := group pi; index := index pi; dupidx := dupidx pi;
       wrmode := wrmode pi; enable := enable pi; transp := transp pi;
       clocks := clocks pi; clkpol := clkpol pi;
       sig_clock := SigBit_default;
       sig_addr := [];
       sig_data := [];
       sig_en := [];
       effective_clkpol := effective_clkpol pi;
       mapped_port := -1 |}
  else pi.

Definition next_replica (ps : prescan_t) (pi : portinfo_t) : portinfo_t :=
  {| group := group pi; index := index pi;
     dupidx := dupidx pi + 1;
     wrmode := wrmode pi; enable := enable pi; transp := transp pi;
     clocks :=
       if decide (clocks pi <> 0 /\ clocks pi ∉ clocks_wr_ports ps)
       then clocks pi + clocks_max ps else clocks pi;
     clkpol :=
       if decide (clkpol pi > 1 /\ clkpol pi ∉ clkpol_wr_ports ps)
       then clkpol pi + clkpol_max ps else clkpol pi;
     sig_clock := sig_clock pi;
     sig_addr := sig_addr pi;
     sig_data := sig_data pi;
     sig_en := sig_en pi;
     effective_clkpol := effective_clkpol pi;
     mapped_port := mapped_port pi |}.

(** What one PortInfo contributes to [new_portinfos]. *)
Definition grow_portinfo (ps : prescan_t) (dup_count_ : Z) (pi : portinfo_t) : list portinfo_t :=
  let pi0 := clear_binding pi in
  if decide (dupidx pi0 = dup_count_ - 1) then [pi0; next_replica ps pi0] else [pi0].

Definition grow_read_ports (ps : prescan_t)
    (backup_clock_domains : gmap Z (SigBit * bool)) (backup_clock_polarities : gmap Z bool)
    (st : assignment) : assignment :=
  {| portinfos := pi ← portinfos st; grow_portinfo ps (dup_count st) pi;
     dup_count := dup_count st + 1;
     clock_domains := backup_clock_domains;
     clock_polarities := backup_clock_polarities;
     grow_read_ports_cursor := grow_read_ports_cursor st;
     try_growing_more_read_ports := false |}.

(** The read-port loop together with the jumps to [grow_read_ports]: each
    unit of fuel pays for one pass over the read ports.  [Ok None] is
    [return false]. *)
Fixpoint read_phase (fuel : nat) (cell : Cell) (ps : prescan_t)
    (backup_clock_domains : gmap Z (SigBit * bool)) (backup_clock_polarities : gmap Z bool)
    (st : assignment) : option (result (option assignment)) :=
  match fuel with
  | O => None
  | Datatypes.S fuel' =>
      match read_ports cell (Z.to_nat (RD_PORTS cell)) 0 st with
      | Error e => Some (Error e)
      | Ok (AllMapped st') => Some (Ok (Some st'))
      | Ok (FailedAt _ st') =>
          if try_growing_more_read_ports st' then
            read_phase fuel' cell ps backup_clock_domains backup_clock_polarities
              (grow_read_ports ps backup_clock_domains backup_clock_polarities st')
          else Some (Ok None)
      end
  end.

Definition initial_assignment (bram : bram_t) : assignment :=
  {| portinfos := make_portinfos bram;
     dup_count := 1;
     clock_domains := ∅;
     clock_polarities := <[1 := true]> (<[0 := false]> ∅);
     grow_read_ports_cursor := -1;
     try_growing_more_read_ports := false |}.

(** The write-port loop of an attempt, from the fresh PortInfos. *)
Definition write_phase (cell : Cell) (bram : bram_t) : result (option assignment) :=
  write_ports cell bram (Z.to_nat (WR_PORTS cell)) 0 0 (initial_assignment bram).

(** Lines 224-457 of [replace_cell]: [Ok None] is [return false],
    [Ok (Some st)] the locals with which the grid loops start. *)
Definition assign_ports (fuel : nat) (cell : Cell) (bram : bram_t)
    : option (result (option assignment)) :=
  match write_phase cell bram with
  | Error e => Some (Error e)
  | Ok None => Some (Ok None)
  | Ok (Some st) =>
      read_phase fuel cell (prescan (make_portinfos bram))
        (clock_domains st) (clock_polarities st) st
  end.

(** ** replace_cell: the grid *)

Fixpoint foldM {A B : Type} (f : B -> A -> result B) (l : list A) (b : B) : result B :=
  match l with
  | [] => Ok b
  | x :: l' => b' ← f b x; foldM f l' b'
  end.

(** [for (i = start; cond(i); i++) body], one unit of fuel per test of the
    condition. *)
Fixpoint for_loop {B : Type} (fuel : nat) (cond : Z -> bool)
    (body : Z -> B -> option (result B)) (i : Z) (b : B) : option (result B) :=
  match fuel with
  | O => None
  | Datatypes.S fuel' =>
      if cond i then
        match body i b with
        | Some (Ok b') => for_loop fuel' cond body (i + 1) b'
        | other => other
        end
      else Some (Ok b)
  end.

Definition backslash : string := String (Ascii.ascii_of_N 92) EmptyString.

(** [stringf("%c%d", pi.group + 'A', pi.index + 1)] *)
Definition port_prefix (pi : portinfo_t) : string :=
  String (Ascii.ascii_of_N (Z.to_N ((group pi + 65) `mod` 256))) (pretty (index pi + 1)).

(** [stringf("\\%sEN", pf)] and its like *)
Definition port_name (pi : portinfo_t) (suffix : string) : string :=
  backslash +:+ port_prefix pi +:+ suffix.

(** [stringf("%s.%d.%d.%d", cell->name.c_str(), grid_d, grid_a, dupidx)] *)
Definition instance_name (cell : Cell) (grid_d grid_a dupidx_ : Z) : string :=
  name cell +:+ "." +:+ pretty grid_d +:+ "." +:+ pretty grid_a +:+ "." +:+ pretty dupidx_.

(** [dict<SigSpec, pair<SigSpec, SigSpec>>], in the order the keys came in. *)
Abbreviation dout_cache_t := (list (SigSpec * (SigSpec * SigSpec))).

(** [dout_cache[key].first.append(sel); dout_cache[key].second.append(dout)] *)
Fixpoint dout_cache_append (cache : dout_cache_t) (key sel dout : SigSpec) : dout_cache_t :=
  match cache with
  | [] => [(key, (sel, dout))]
  | (k, (s, d)) :: cache' =>
      if decide (k = key) then (k, (s ++ sel, d ++ dout)) :: cache'
      else (k, (s, d)) :: dout_cache_append cache' key sel dout
  end.

(** The loop [for (int i = bram.dbits-1; i >= 0; i--)] that drops the
    constant bits of a read slice, [n] positions to go. *)
Fixpoint prune_unwired (n : nat) (sig_data_ bram_dout : SigSpec) : result (SigSpec * SigSpec) :=
  match n with
  | O => Ok (sig_data_, bram_dout)
  | Datatypes.S i =>
      b ← sig_at sig_data_ (Z.of_nat i);
      if is_const b
      then prune_unwired i (sig_remove sig_data_ i) (sig_remove bram_dout i)
      else prune_unwired i sig_data_ bram_dout
  end.

(** The locals of the grid loops that outlive one PortInfo. *)
Record stitch_t := {
  st_module : Module;
  st_dout_cache : dout_cache_t;
  st_clocks : gmap Z SigBit
}.

(** The body of [for (auto &pi : portinfos)] for the instance [c]. *)
Definition stitch_port (bram : bram_t) (c : string) (grid_d grid_a dupidx_ : Z)
    (s : stitch_t) (pi : portinfo_t) : result stitch_t :=
  if decide (dupidx pi <> dupidx_) then Ok s
  else
    let clks :=
      if decide (clocks pi <> 0 /\
                 (st_clocks s !! clocks pi = None \/ is_const (sig_clock pi) = false))
      then <[clocks pi := sig_clock pi]> (st_clocks s) else st_clocks s in
    let m := st_module s in
    '(addr_ok, m) ←
      (if decide (Z.of_nat (List.length (sig_addr pi)) > b_abits bram) then
         extra_addr ← extract (sig_addr pi) (b_abits bram)
                        (Z.of_nat (List.length (sig_addr pi)) - b_abits bram);
         let extra_addr_sel := sig_of_int grid_a (Z.of_nat (List.length extra_addr)) in
         let '(id, m) := new_id m in
         Ok (sig_of_wire (AutoWire id) 1, emit (Eq id extra_addr extra_addr_sel) m)
       else Ok ([], m));
    m ←
      (if decide (enable pi <> 0) then
         en ← extract (extend_u0 (sig_en pi) ((grid_d + 1) * enable pi))
                (grid_d * enable pi) (enable pi);
         let '(en, m) :=
           if decide (addr_ok <> []) then
             let '(id, m) := new_id m in
             (sig_of_wire (AutoWire id) (Z.of_nat (List.length en)),
              emit (Mux id (sig_of_int 0 (Z.of_nat (List.length en))) en addr_ok) m)
           else (en, m) in
         Ok (emit (setPort c (port_name pi "EN") en) m)
       else Ok m);
    data ← extract (extend_u0 (sig_data pi) ((grid_d + 1) * b_dbits bram))
             (grid_d * b_dbits bram) (b_dbits bram);
    '(m, cache) ←
      (if decide (wrmode pi = 1) then
         Ok (emit (setPort c (port_name pi "DATA") data) m, st_dout_cache s)
       else
         let '(id, m) := new_id m in
         let bram_dout := sig_of_wire (AutoWire id) (b_dbits bram) in
         let m := emit (addWire id (b_dbits bram)) m in
         let m := emit (setPort c (port_name pi "DATA") bram_dout) m in
         '(data, bram_dout) ← prune_unwired (Z.to_nat (b_dbits bram)) data bram_dout;
         let '(addr_ok_q, m) :=
           if decide (clocks pi <> 0 /\ addr_ok <> []) then
             let '(idq, m) := new_id m in
             let m := emit (addWire idq 1) m in
             let '(idf, m) := new_id m in
             (sig_of_wire (AutoWire idq) 1,
              emit (addDff idf (sig_clock pi) addr_ok (sig_of_wire (AutoWire idq) 1)
                      (effective_clkpol pi)) m)
           else (addr_ok, m) in
         Ok (m, dout_cache_append (st_dout_cache s) data addr_ok_q bram_dout));
    Ok {| st_module :=
            emit (setPort c (port_name pi "ADDR")
                    (extend_u0 (sig_addr pi) (b_abits bram))) m;
          st_dout_cache := cache;
          st_clocks := clks |}.

(** [for (auto &it : clocks) c->setPort("\\CLK%d", ...)] *)
Definition set_clock_port (ps : prescan_t) (c : string) (m : Module) (it : Z * SigBit)
    : result Module :=
  r ← int_rem (it.1 - 1) (clocks_max ps);
  Ok (emit (setPort c (backslash +:+ "CLK" +:+ pretty (r + 1)) [it.2]) m).

(** [for (auto &it : clock_polarities) if (it.first > 1) c->setParam("\\CLKPOL%d", ...)] *)
Definition set_clkpol_param (ps : prescan_t) (c : string) (m : Module) (it : Z * bool)
    : result Module :=
  if decide (it.1 > 1) then
    r ← int_rem (it.1 - 1) (clkpol_max ps);
    Ok (emit (setParam c (backslash +:+ "CLKPOL" +:+ pretty (r + 1)) it.2) m)
  else Ok m.

(** The body of the three grid loops: one bram cell and its ports. *)
Definition stitch_instance (cell : Cell) (bram : bram_t) (ps : prescan_t) (st : assignment)
    (grid_d grid_a : Z) (s : Module * dout_cache_t) (dupidx_ : Z)
    : result (Module * dout_cache_t) :=
  let c := instance_name cell grid_d grid_a dupidx_ in
  s' ← foldM (stitch_port bram c grid_d grid_a dupidx_) (portinfos st)
         {| st_module := emit (addCell c (b_name bram)) s.1;
            st_dout_cache := s.2;
            st_clocks := ∅ |};
  m ← foldM (set_clock_port ps c) (map_to_list (st_clocks s')) (st_module s');
  m ← foldM (set_clkpol_param ps c) (map_to_list (clock_polarities st)) m;
  Ok (m, st_dout_cache s').

(** The grid loops, lines 461-537. *)
Definition stitch_grid (fuel : nat) (cell : Cell) (bram : bram_t) (ps : prescan_t)
    (st : assignment) (s : Module * dout_cache_t) : option (result (Module * dout_cache_t)) :=
  for_loop fuel (fun grid_d => bool_decide (grid_d * b_dbits bram < WIDTH cell))
    (fun grid_d s =>
       for_loop fuel
         (fun grid_a => bool_decide (grid_a * Z.shiftl 1 (b_abits bram) < SIZE cell))
         (fun grid_a s =>
            Some (foldM (stitch_instance cell bram ps st grid_d grid_a) (seqZ 0 (dup_count st)) s))
         0 s)
    0 s.

(** The body of [for (auto &it : dout_cache)]. *)
Definition resolve_dout (m : Module) (it : SigSpec * (SigSpec * SigSpec)) : result Module :=
  if decide (it.2.1 = []) then
    if decide (List.length it.1 = List.length it.2.2)
    then Ok (emit (connect it.1 it.2.2) m)
    else Error AssertionFailed
  else
    if decide ((List.length it.1 * List.length it.2.1)%nat = List.length it.2.2)
    then let '(id, m) := new_id m in
         Ok (emit (addPmux id (sig_of_state Sx (Z.of_nat (List.length it.1)))
                     it.2.2 it.2.1 it.1) m)
    else Error AssertionFailed.

(** Lines 459-553: the grid, the read-data connections, and the removal of
    the $mem cell. *)
Definition stitch (fuel : nat) (cell : Cell) (bram : bram_t) (st : assignment) (m : Module)
    : option (result Module) :=
  match stitch_grid fuel cell bram (prescan (make_portinfos bram)) st (m, []) with
  | None => None
  | Some (Error e) => Some (Error e)
  | Some (Ok (m', cache)) =>
      Some (m'' ← foldM resolve_dout cache m'; Ok (emit (remove (name cell)) m''))
  end.

Definition replace_cell (fuel : nat) (cell : Cell) (bram : bram_t) (mt : match_t) (m : Module)
    : option (result (bool * Module)) :=
  match assign_ports fuel cell bram with
  | None => None
  | Some (Error e) => Some (Error e)
  | Some (Ok None) => Some (Ok (false, m))
  | Some (Ok (Some st)) =>
      match stitch fuel cell bram st m with
      | None => None
      | Some (Error e) => Some (Error e)
      | Some (Ok m') => Some (Ok (true, m'))
      end
  end.

(** ** handle_cell *)

Inductive log_msg :=
| LogProcessing (cell : string)
| LogProperties (properties : list (string * Z))
| LogWasted (bram : string) (awaste dwaste waste : Z)
| LogRejectedMin (i : Z) (bram : string) (key : string) (limit : Z)
| LogRejectedMax (i : Z) (bram : string) (key : string) (limit : Z)
| LogAccepted (i : Z) (bram : string)
| LogMappingFailed (bram : string)
| LogNoAcceptable.

(** [match_properties[key]] *)
Definition prop (match_properties : gmap string Z) (key : string) : Z :=
  default 0 (match_properties !! key).

(** The properties of the cell, set before the rules are walked. *)
Definition cell_properties (cell : Cell) : gmap string Z :=
  let p0 : gmap string Z := ∅ in
  let p1 := <["words" := SIZE cell]> p0 in
  let p2 := <["abits" := ABITS cell]> p1 in
  let p3 := <["dbits" := WIDTH cell]> p2 in
  let p4 := <["wports" := WR_PORTS cell]> p3 in
  let p5 := <["rports" := RD_PORTS cell]> p4 in
  let p6 := <["bits" := prop p5 "words" * prop p5 "dbits"]> p5 in
  <["ports" := prop p6 "wports" + prop p6 "rports"]> p6.

(** [awaste], [dwaste] and [waste] of a bram for the cell. *)
Definition wasted (match_properties : gmap string Z) (bram : bram_t) : result (Z * Z * Z) :=
  aover ← int_rem (prop match_properties "words") (Z.shiftl 1 (b_abits bram));
  let awaste := if decide (aover <> 0) then Z.shiftl 1 (b_abits bram) - aover else 0 in
  dover ← int_rem (prop match_properties "dbits") (b_dbits bram);
  let dwaste := if decide (dover <> 0) then b_dbits bram - dover else 0 in
  let waste := awaste * b_dbits bram + dwaste * Z.shiftl 1 (b_abits bram) - awaste * dwaste in
  Ok (awaste, dwaste, waste).

Definition set_wasted (match_properties : gmap string Z) (w : Z * Z * Z) : gmap string Z :=
  <["waste" := w.2]> (<["dwaste" := w.1.2]> (<["awaste" := w.1.1]> match_properties)).

(** One of the two loops over the limits of a rule; [met] is [>=] for
    [min_limits] and [<=] for [max_limits].  [Ok None]: the loop ran to its
    end; [Ok (Some it)]: [it] is not met, [goto next_match_rule]. *)
Fixpoint check_limits (met : Z -> Z -> bool) (match_properties : gmap string Z)
    (bram : string) (limits : list (string * Z)) : result (option (string * Z)) :=
  match limits with
  | [] => Ok None
  | it :: limits' =>
      match match_properties !! it.1 with
      | None => Error (UnknownProperty it.1 bram)
      | Some v =>
          if met v it.2 then check_limits met match_properties bram limits'
          else Ok (Some it)
      end
  end.

(** How the two loops over the limits of a rule end. *)
Inductive verdict :=
| Accepted
| RejectedMin (it : string * Z)
| RejectedMax (it : string * Z).

(** The loop over [min_limits], then the loop over [max_limits]. *)
Definition check_rule (match_properties : gmap string Z) (mt : match_t) : result verdict :=
  r ← check_limits Z.geb match_properties (m_name mt) (min_limits mt);
  match r with
  | Some it => Ok (RejectedMin it)
  | None =>
      r ← check_limits Z.leb match_properties (m_name mt) (max_limits mt);
      match r with
      | Some it => Ok (RejectedMax it)
      | None => Ok Accepted
      end
  end.

(** The loop over [rules.matches], from rule [i] on ([pending] are the rules
    [i], [i+1], ...). *)
Fixpoint match_rules (fuel : nat) (cell : Cell) (rules : rules_t) (pending : list match_t)
    (i : Z) (match_properties : gmap string Z) (failed_brams : gset string)
    (m : Module) (log : list log_msg) : option (result (Module * list log_msg)) :=
  match pending with
  | [] => Some (Ok (m, log ++ [LogNoAcceptable]))
  | mt :: pending' =>
      match brams rules !! m_name mt with
      | None => Some (Error (NoBramDescription (m_name mt)))
      | Some bram =>
          if decide (m_name mt ∈ failed_brams) then
            match_rules fuel cell rules pending' (i + 1) match_properties failed_brams m log
          else
            match wasted match_properties bram with
            | Error e => Some (Error e)
            | Ok w =>
                let match_properties := set_wasted match_properties w in
                let log := log ++ [LogWasted (m_name mt) w.1.1 w.1.2 w.2] in
                match check_rule match_properties mt with
                | Error e => Some (Error e)
                | Ok (RejectedMin it) =>
                    match_rules fuel cell rules pending' (i + 1) match_properties failed_brams m
                      (log ++ [LogRejectedMin i (m_name mt) it.1 it.2])
                | Ok (RejectedMax it) =>
                    match_rules fuel cell rules pending' (i + 1) match_properties failed_brams m
                      (log ++ [LogRejectedMax i (m_name mt) it.1 it.2])
                | Ok Accepted =>
                    match replace_cell fuel cell bram mt m with
                    | None => None
                    | Some (Error e) => Some (Error e)
                    | Some (Ok (true, m')) =>
                        Some (Ok (m', log ++ [LogAccepted i (m_name mt)]))
                    | Some (Ok (false, m')) =>
                        match_rules fuel cell rules pending' (i + 1) match_properties
                          ({[m_name mt]} ∪ failed_brams) m'
                          (log ++ [LogAccepted i (m_name mt); LogMappingFailed (m_name mt)])
                    end
                end
            end
      end
  end.

Definition handle_cell (fuel : nat) (cell : Cell) (rules : rules_t) (m : Module)
    : option (result (Module * list log_msg)) :=
  match_rules fuel cell rules (matches rules) 0 (cell_properties cell) ∅ m
    [LogProcessing (name cell); LogProperties (map_to_list (cell_properties cell))].

(** ** Vocabulary of the specification *)

(** The ceiling of [a / b]. *)
Definition cdiv (a b : Z) : Z := - ((- a) `div` b).





(** The bram cells among a sequence of calls: name asked for and type. *)
Definition instances (cs : list call) : list (string * string) :=
  omap (fun x => match x with addCell n t => Some (n, t) | _ => None end) cs.

(** [m'] is [m] after the calls [cs] were made, all of them satisfying [P],
    and [inst] are the cells added by [addCell] among them. *)
Definition emits (P : call -> Prop) (inst : list (string * string)) (m m' : Module) : Prop :=
  exists cs, calls m' = calls m ++ cs /\ Forall P cs /\ instances cs = inst.

(** The calls the stitcher may make for the PortInfo [pi] of the cell [c]. *)
Definition port_call (pi : portinfo_t) (c : string) (x : call) : Prop :=
  match x with
  | setPort c' p _ =>
      c' = c /\
      (p = port_name pi "DATA" \/ p = port_name pi "ADDR" \/
       (enable pi <> 0 /\ p = port_name pi "EN"))
  | addWire _ _ | Eq _ _ _ | Mux _ _ _ _ | addDff _ _ _ _ _ => True
  | _ => False
  end.


(** The states in which a pass over the read ports starts: the state
    [st1] the write phase left, and the state after every jump to
    [grow_read_ports].  [grown] lists, in order, the read ports whose
    failure led to the duplication steps made so far. *)
Inductive round_start (cell : Cell) (bram : bram_t) (st1 : assignment)
    : list Z -> assignment -> Prop :=
| start_first : round_start cell bram st1 [] st1
| start_grown grown st f st' :
    round_start cell bram st1 grown st ->
    read_ports cell (Z.to_nat (RD_PORTS cell)) 0 st = Ok (FailedAt f st') ->
    try_growing_more_read_ports st' = true ->
    round_start cell bram st1 (grown ++ [f])
      (grow_read_ports (prescan (make_portinfos bram))
         (clock_domains st1) (clock_polarities st1) st').

(** A PortInfo is consistent with a clock cohort map: if it is bound and
    clocked, the map holds its clock signal and polarity under its id. *)
Definition clock_bound (cd : gmap Z (SigBit * bool)) (pi : portinfo_t) : Prop :=
  0 <= mapped_port pi -> clocks pi <> 0 ->
  exists pol, effective_clkpol pi = Some pol /\ cd !! clocks pi = Some (sig_clock pi, pol).

(** The cohort ids of the write-mode PortInfos are those of the prescan. *)
Definition wr_cohorts (ps : prescan_t) (pi : portinfo_t) : Prop :=
  wrmode pi <> 0 ->
  clocks pi ∈ clocks_wr_ports ps /\ (clkpol pi > 1 -> clkpol pi ∈ clkpol_wr_ports ps).


(** The logical port to which the PortInfo [(group, index, dupidx)] of a
    vector is bound. *)
Definition binding_of (l : list portinfo_t) (g i d : Z) : option Z :=
  mapped_port <$>
    List.find (fun pi => bool_decide (group pi = g /\ index pi = i /\ dupidx pi = d)) l.

(** Every read-mode PortInfo bound in [l] has the same binding in [l']. *)
Definition keeps_read_bindings (l l' : list portinfo_t) : Prop :=
  forall pi, pi ∈ l -> wrmode pi = 0 -> 0 <= mapped_port pi ->
    binding_of l' (group pi) (index pi) (dupidx pi) = Some (mapped_port pi).

(** ** Example designs *)

Definition ex_wire (w : string) (width : Z) : SigSpec := sig_of_wire (UserWire w) width.

Definition ex_clk : SigBit := SigWire (UserWire "clk") 0.

Definition ex_module : Module := {| calls := []; autoidx := 0 |}.

(** A bram with a clocked write port (group A) and a clocked read port
    (group B) on the same clock. *)
Definition ex_bram_1w1r : bram_t :=
  {| b_name := "RAM_1W1R"; b_groups := 2; b_abits := 2; b_dbits := 4; b_init := 0;
     b_ports := [1; 1]; b_wrmode := [1; 0]; b_enable := [1; 0]; b_transp := [0; 0];
     b_clocks := [1; 1]; b_clkpol := [1; 1] |}.

(** A 4x4 memory with one clocked write port and two clocked read ports. *)
Definition ex_mem_1w2r : Cell :=
  {| name := "mem"; SIZE := 4; ABITS := 2; WIDTH := 4;
     WR_PORTS := 1; WR_CLK_ENABLE := [S1]; WR_CLK_POLARITY := [S1];
     WR_EN := replicate 4 (SigWire (UserWire "we") 0);
     WR_CLK := [ex_clk]; WR_DATA := ex_wire "wd" 4; WR_ADDR := ex_wire "wa" 2;
     RD_PORTS := 2; RD_CLK_ENABLE := [S1; S1]; RD_CLK_POLARITY := [S1; S1];
     RD_TRANSPARENT := [S0; S0];
     RD_CLK := [ex_clk; ex_clk]; RD_DATA := ex_wire "rd" 8; RD_ADDR := ex_wire "ra" 4 |}.

(** A bram with a clocked write port (group A) and two asynchronous read
    ports (group B). *)
Definition ex_bram_1w2r : bram_t :=
  {| b_name := "RAM_1W2R"; b_groups := 2; b_abits := 2; b_dbits := 4; b_init := 0;
     b_ports := [1; 2]; b_wrmode := [1; 0]; b_enable := [1; 0]; b_transp := [0; 0];
     b_clocks := [1; 0]; b_clkpol := [1; 0] |}.

(** A 4x4 memory with one clocked write port and three asynchronous read
    ports. *)
Definition ex_mem_1w3r : Cell :=
  {| name := "mem"; SIZE := 4; ABITS := 2; WIDTH := 4;
     WR_PORTS := 1; WR_CLK_ENABLE := [S1]; WR_CLK_POLARITY := [S1];
     WR_EN := replicate 4 (SigWire (UserWire "we") 0);
     WR_CLK := [ex_clk]; WR_DATA := ex_wire "wd" 4; WR_ADDR := ex_wire "wa" 2;
     RD_PORTS := 3; RD_CLK_ENABLE := [S0; S0; S0]; RD_CLK_POLARITY := [S0; S0; S0];
     RD_TRANSPARENT := [S0; S0; S0];
     RD_CLK := replicate 3 (SigConst Sx); RD_DATA := ex_wire "rd" 12;
     RD_ADDR := ex_wire "ra" 6 |}.


(** [body] run for the values [l] of the loop variable, in order. *)
Fixpoint for_each {B : Type} (body : Z -> B -> option (result B)) (l : list Z) (b : B)
    : option (result B) :=
  match l with
  | [] => Some (Ok b)
  | i :: l' =>
      match body i b with
      | Some (Ok b') => for_each body l' b'
      | other => other
      end
  end.

Definition not_remove (x : call) : Prop :=
  match x with
  | remove _ => False
  | _ => True
  end.


(** A limit of a rule is met: the property is known and compares as
    asked ([cmp] is [>=] for a minimum, [<=] for a maximum). *)
Definition limit_met (cmp : Z -> Z -> bool) (match_properties : gmap string Z)
    (it : string * Z) : Prop :=
  exists v, match_properties !! it.1 = Some v /\ cmp v it.2 = true.

(** What the limit loops of [handle_cell] say about a rule for a cell. *)
Definition rule_verdict (cell : Cell) (rules : rules_t) (mt : match_t) : result verdict :=
  match brams rules !! m_name mt with
  | None => Error (NoBramDescription (m_name mt))
  | Some bram =>
      w ← wasted (cell_properties cell) bram;
      check_rule (set_wasted (cell_properties cell) w) mt
  end.

(** The rules for which [replace_cell] was called, from the log: index and
    bram name. *)
Definition attempts (log : list log_msg) : list (Z * string) :=
  omap (fun e => match e with LogAccepted i n => Some (i, n) | _ => None end) log.

(** A 5x3 memory and a 4x4 bram. *)
Definition ex_mem_5x3 : Cell :=
  {| name := "mem5x3"; SIZE := 5; ABITS := 3; WIDTH := 3;
     WR_PORTS := 1; WR_CLK_ENABLE := [S1]; WR_CLK_POLARITY := [S1];
     WR_EN := replicate 3 (SigWire (UserWire "we") 0);
     WR_CLK := [ex_clk]; WR_DATA := ex_wire "wd" 3; WR_ADDR := ex_wire "wa" 3;
     RD_PORTS := 1; RD_CLK_ENABLE := [S1]; RD_CLK_POLARITY := [S1];
     RD_TRANSPARENT := [S0];
     RD_CLK := [ex_clk]; RD_DATA := ex_wire "rd" 3; RD_ADDR := ex_wire "ra" 3 |}.

Definition ex_rule_max_waste_0 : match_t :=
  {| m_name := "RAM_1W1R"; min_limits := []; max_limits := [("waste", 0)] |}.

(** A rule whose minimum is not met and whose maximum names a property that
    does not exist. *)
Definition ex_rule_bogus : match_t :=
  {| m_name := "RAM_1W1R"; min_limits := [("words", 100)]; max_limits := [("bogus", 0)] |}.

Definition ex_rules (mts : list match_t) : rules_t :=
  {| brams := <["RAM_1W2R" := ex_bram_1w2r]> (<["RAM_1W1R" := ex_bram_1w1r]> ∅);
     matches := mts |}.


(** What the events [ev] logged by the walk over the rules from rule
    [from] on, with the brams [failed_brams] already given up and the
    module [m], say about the walk; [m'] is the module it leaves. *)
Definition search_trace (fuel : nat) (cell : Cell) (rules : rules_t) (m : Module)
    (failed_brams : gset string) (from : Z) (ev : list log_msg) (m' : Module) : Prop :=
  StronglySorted Z.lt (attempts ev).*1 /\
  Forall (fun a => from <= a.1 /\ a.2 ∉ failed_brams) (attempts ev) /\
  NoDup (attempts ev).*2 /\
  Forall (fun a => exists mt,
            0 <= a.1 /\ matches rules !! Z.to_nat a.1 = Some mt /\ m_name mt = a.2 /\
            rule_verdict cell rules mt = Ok Accepted) (attempts ev) /\
  ((m' = m /\ last ev = Some LogNoAcceptable /\
    Forall (fun a => LogMappingFailed a.2 ∈ ev) (attempts ev)) \/
   (exists i mt bram,
      last ev = Some (LogAccepted i (m_name mt)) /\
      matches rules !! Z.to_nat i = Some mt /\
      brams rules !! m_name mt = Some bram /\
      replace_cell fuel cell bram mt m = Some (Ok (true, m')) /\
      (LogNoAcceptable ∉ ev) /\
      Forall (fun a => a.1 = i \/ LogMappingFailed a.2 ∈ ev) (attempts ev))).


(** A bram with two clocked write ports in one group, each with two
    enable bits. *)
Definition ex_bram_2w : bram_t :=
  {| b_name := "RAM_2W"; b_groups := 1; b_abits := 2; b_dbits := 4; b_init := 0;
     b_ports := [2]; b_wrmode := [1]; b_enable := [2]; b_transp := [0];
     b_clocks := [1]; b_clkpol := [1] |}.

(** A 4x4 memory with one clocked write port, whose enable bits come in
    two pairs, and no read port. *)
Definition ex_mem_1w : Cell :=
  {| name := "mem"; SIZE := 4; ABITS := 2; WIDTH := 4;
     WR_PORTS := 1; WR_CLK_ENABLE := [S1]; WR_CLK_POLARITY := [S1];
     WR_EN := [SigWire (UserWire "we") 0; SigWire (UserWire "we") 0;
               SigWire (UserWire "we") 1; SigWire (UserWire "we") 1];
     WR_CLK := [ex_clk]; WR_DATA := ex_wire "wd" 4; WR_ADDR := ex_wire "wa" 2;
     RD_PORTS := 0; RD_CLK_ENABLE := []; RD_CLK_POLARITY := [];
     RD_TRANSPARENT := [];
     RD_CLK := []; RD_DATA := []; RD_ADDR := [] |}.

(** A bram whose write port has no enable bits, and a memory whose write
    port is always enabled. *)
Definition ex_bram_noen : bram_t :=
  {| b_name := "RAM_NOEN"; b_groups := 1; b_abits := 2; b_dbits := 4; b_init := 0;
     b_ports := [1]; b_wrmode := [1]; b_enable := [0]; b_transp := [0];
     b_clocks := [1]; b_clkpol := [1] |}.

Definition ex_mem_noen : Cell :=
  {| name := "mem"; SIZE := 4; ABITS := 2; WIDTH := 4;
     WR_PORTS := 1; WR_CLK_ENABLE := [S1]; WR_CLK_POLARITY := [S1];
     WR_EN := replicate 4 (SigConst S1);
     WR_CLK := [ex_clk]; WR_DATA := ex_wire "wd" 4; WR_ADDR := ex_wire "wa" 2;
     RD_PORTS := 0; RD_CLK_ENABLE := []; RD_CLK_POLARITY := [];
     RD_TRANSPARENT := [];
     RD_CLK := []; RD_DATA := []; RD_ADDR := [] |}.

(** A rule without limits for the bram [n]. *)
Definition ex_rule_any (n : string) : match_t :=
  {| m_name := n; min_limits := []; max_limits := [] |}.

(** The calls of the grid loops: bram cells, their ports and parameters,
    and the wires and cells of the address decoders. *)
Definition grid_call (x : call) : Prop :=
  match x with
  | addCell _ _ | setPort _ _ _ | setParam _ _ _ | addWire _ _
  | Eq _ _ _ | Mux _ _ _ _ | addDff _ _ _ _ _ => True
  | addPmux _ _ _ _ _ | connect _ _ | remove _ => False
  end.

(** The call that commits the entry [it] of the read-data cache: a
    connection when the entry has no select, a multiplexer otherwise. *)
Definition dout_call (it : SigSpec * (SigSpec * SigSpec)) (x : call) : Prop :=
  if decide (it.2.1 = [])
  then x = connect it.1 it.2.2
  else exists id,
         x = addPmux id (sig_of_state Sx (Z.of_nat (List.length it.1))) it.2.2 it.2.1 it.1.

(** * Properties *)




(** ** The enable scan of the write ports (C5, C10) *)

Lemma bind_Ok {A B} (m : result A) (f : A -> result B) (b : B) :
  m ≫= f = Ok b <-> exists a, m = Ok a /\ f a = Ok b.
Proof.
  destruct m as [a|e]; simpl; split.
  - intros H. exists a. auto.
  - intros (a' & Ha & Hf). congruence.
  - discriminate.
  - intros (a' & Ha & _). discriminate.
Qed.




Section enable_scan_facts.
Variables (bram : bram_t) (pi : portinfo_t) (wr_en : SigSpec) (w W : Z).


End enable_scan_facts.

Section enable_scan_more.
Variables (bram : bram_t) (pi : portinfo_t) (wr_en : SigSpec) (w W : Z).


(** With [enable = 0] no lane ever starts: the scan compares every bit
    with the initial [last_en_bit] and never appends. *)
Lemma enable_scan_zero n : forall i last en r,
  enable pi = 0 ->
  enable_scan bram pi wr_en w W n i last en = Ok (Some r) <->
  r = en /\ forall j, i <= j < i + Z.of_nat n -> sig_at wr_en (j + w * W) = Ok last.
Proof.
  induction n as [|n IH]; intros i last en r He.
  - simpl. split.
    + intros [= <-]. split; [done|]. intros j Hj. lia.
    + intros [-> _]. done.
  - cbn [enable_scan].
    destruct (decide (enable pi = 0)) as [_|]; [|done].
    cbn [mbind result_bind fst snd].
    destruct (sig_at wr_en (i + w * W)) as [b|e] eqn:Hb; cbn [mbind result_bind].
    + destruct (decide (last <> b)) as [Hne|Heq].
      * split; [discriminate|]. intros [_ H]. specialize (H i ltac:(lia)). congruence.
      * apply dec_stable in Heq. subst b. rewrite IH by done.
        split; intros [-> H]; (split; [done|]); intros j Hj.
        -- destruct (decide (j = i)) as [->|]; [done|]. apply H. lia.
        -- apply H. lia.
    + split; [discriminate|]. intros [_ H]. specialize (H i ltac:(lia)). congruence.
Qed.
End enable_scan_more.



Lemma try_wr_port_Some cell bram w clken clkdom clkpol_ cd cp pi pi' :
  try_wr_port cell bram w clken clkdom clkpol_ cd cp pi = Ok (Some pi') ->
  wrmode pi = 1 /\
  clock_compatible clken clkdom clkpol_ cd cp pi = true /\
  exists en addr data,
    enable_scan bram pi (WR_EN cell) w (WIDTH cell) (Z.to_nat (WIDTH cell)) 0 (SigConst S1) []
      = Ok (Some en) /\
    extract (WR_ADDR cell) (w * ABITS cell) (ABITS cell) = Ok addr /\
    extract (WR_DATA cell) (w * WIDTH cell) (WIDTH cell) = Ok data /\
    pi' = bind_port pi w clken clkdom en addr data.
Proof.
  unfold try_wr_port. intros H.
  destruct (decide (wrmode pi <> 1)) as [|Hw]; [discriminate|]. apply dec_stable in Hw.
  destruct (clock_compatible clken clkdom clkpol_ cd cp pi); [|discriminate].
  cbn [negb] in H.
  apply bind_Ok in H as ([en|] & Hscan & H); [|discriminate].
  apply bind_Ok in H as (addr & Haddr & H).
  apply bind_Ok in H as (data & Hdata & H).
  injection H as <-. eauto 10.
Qed.







(** ** The calls made for one PortInfo *)

Lemma emits_refl P m : emits P [] m m.
Proof. exists []. rewrite app_nil_r. repeat split; constructor. Qed.

Lemma emits_trans P i1 i2 m1 m2 m3 :
  emits P i1 m1 m2 -> emits P i2 m2 m3 -> emits P (i1 ++ i2) m1 m3.
Proof.
  intros (cs1 & H1 & F1 & I1) (cs2 & H2 & F2 & I2). exists (cs1 ++ cs2).
  split; [|split].
  - rewrite H2, H1, app_assoc. done.
  - apply Forall_app. done.
  - unfold instances in *. rewrite omap_app. congruence.
Qed.

Lemma emits_emit (P : call -> Prop) x m : P x -> emits P (instances [x]) m (emit x m).
Proof. intros Hx. exists [x]. repeat split. by constructor. Qed.

Lemma emits_new_id P m : emits P [] m (new_id m).2.
Proof. exists []. simpl. rewrite app_nil_r. repeat split; constructor. Qed.

Lemma emits_weaken (P Q : call -> Prop) i m m' :
  (forall x, P x -> Q x) -> emits P i m m' -> emits Q i m m'.
Proof.
  intros HPQ (cs & H & F & I). exists cs. repeat split; try done.
  eapply Forall_impl; eauto.
Qed.

Lemma emits_step P i m1 m2 x :
  emits P i m1 m2 -> P x -> instances [x] = [] -> emits P i m1 (emit x m2).
Proof.
  intros H Hx Hi. rewrite <- (app_nil_r i), <- Hi.
  eapply emits_trans; [exact H|]. by apply emits_emit.
Qed.

Lemma emits_step_id P i m1 m2 :
  emits P i m1 m2 -> emits P i m1 (new_id m2).2.
Proof.
  intros H. rewrite <- (app_nil_r i).
  eapply emits_trans; [exact H|]. apply emits_new_id.
Qed.

Lemma emits_calls P i m1 m2 m3 cs :
  emits P i m1 m2 -> calls m3 = calls m2 ++ cs -> Forall P cs -> instances cs = [] ->
  emits P i m1 m3.
Proof.
  intros (cs0 & H & F & I) H3 Fcs Ics. exists (cs0 ++ cs). split; [|split].
  - rewrite H3, H, app_assoc. done.
  - apply Forall_app. done.
  - unfold instances in *. rewrite omap_app, I, Ics, app_nil_r. done.
Qed.

Ltac emits_from E :=
  first
    [ exact E
    | eapply (emits_calls _ _ _ _ _ _ E);
      [ cbn [calls emit new_id fst snd]; rewrite <- ?app_assoc; reflexivity
      | repeat constructor; simpl; tauto
      | reflexivity ] ].

Lemma stitch_port_calls bram c d a k s pi s' :
  stitch_port bram c d a k s pi = Ok s' ->
  emits (port_call pi c) [] (st_module s) (st_module s').
Proof.
  unfold stitch_port. intros H.
  destruct (decide (dupidx pi <> k)); [injection H as <-; apply emits_refl|].
  apply bind_Ok in H as ([addr_ok m1] & H1 & H).
  assert (emits (port_call pi c) [] (st_module s) m1) as E1.
  { pose proof (emits_refl (port_call pi c) (st_module s)) as E0.
    destruct (decide (_ > _)).
    - apply bind_Ok in H1 as (extra & _ & H1). injection H1 as _ <-. emits_from E0.
    - injection H1 as _ <-. emits_from E0. }
  clear H1.
  apply bind_Ok in H as (m2 & H2 & H).
  assert (emits (port_call pi c) [] (st_module s) m2) as E2.
  { destruct (decide (enable pi <> 0)).
    - apply bind_Ok in H2 as (en & _ & H2).
      destruct (decide (addr_ok <> [])); injection H2 as <-; emits_from E1.
    - injection H2 as <-. emits_from E1. }
  clear H2 E1.
  apply bind_Ok in H as (data & _ & H).
  apply bind_Ok in H as ([m3 cache] & H3 & H).
  injection H as <-. cbn [st_module].
  assert (emits (port_call pi c) [] (st_module s) m3) as E3.
  { destruct (decide (wrmode pi = 1)).
    - injection H3 as <- _. emits_from E2.
    - apply bind_Ok in H3 as ([data' dout'] & _ & H3).
      destruct (decide (clocks pi <> 0 /\ addr_ok <> [])); injection H3 as <- _; emits_from E2. }
  emits_from E3.
Qed.

Lemma append_inj_l (p a b : string) : p +:+ a = p +:+ b -> a = b.
Proof.
  induction p as [|ch p IH]; simpl; intros H; [done|].
  injection H as H. auto.
Qed.

Lemma port_name_inj pi (a b : string) : port_name pi a = port_name pi b -> a = b.
Proof. unfold port_name. intros H. by do 2 apply append_inj_l in H. Qed.

(** C10: a write-mode PortInfo without enable bits ([enable = 0]) is bound
    to a write port only if every WR_EN bit of that port is the constant 1;
    the [sig_en] it is bound with is empty, and the stitcher sets no EN
    port for it on any bram cell. *)
Theorem enable_zero_port cell bram w clken clkdom clkpol_ cd cp pi pi' :
  enable pi = 0 ->
  try_wr_port cell bram w clken clkdom clkpol_ cd cp pi = Ok (Some pi') ->
  (forall i, 0 <= i < WIDTH cell ->
     sig_at (WR_EN cell) (i + w * WIDTH cell) = Ok (SigConst S1)) /\
  sig_en pi' = [] /\
  (forall c grid_d grid_a dupidx_ s s',
     stitch_port bram c grid_d grid_a dupidx_ s pi' = Ok s' ->
     exists cs, calls (st_module s') = calls (st_module s) ++ cs /\
                forall cell_ sig, setPort cell_ (port_name pi' "EN") sig ∉ cs).
Proof.
  intros He Htry.
  apply try_wr_port_Some in Htry as (_ & _ & en & addr & data & Hs & _ & _ & ->).
  apply enable_scan_zero in Hs as [-> Hbits]; [|done].
  split; [|split].
  - intros i Hi. apply Hbits. lia.
  - reflexivity.
  - intros c grid_d grid_a dupidx_ s s' Hst.
    apply stitch_port_calls in Hst as (cs & Hcs & Hall & _).
    exists cs. split; [done|]. intros cell_ sig Hin.
    rewrite Forall_forall in Hall. specialize (Hall _ Hin). simpl in Hall.
    destruct Hall as (_ & [H | [H | [H _]]]).
    + apply port_name_inj in H. discriminate.
    + apply port_name_inj in H. discriminate.
    + simpl in H. done.
Qed.


(** ** The passes over the read ports (C7) *)

Lemma find_port_Some try_port rest k j pi' :
  find_port try_port rest k = Ok (Some (j, pi')) ->
  exists pi, (k <= j)%nat /\ rest !! (j - k)%nat = Some pi /\ try_port pi = Ok (Some pi') /\
             Forall (fun p => try_port p = Ok None) (take (j - k) rest).
Proof.
  revert k. induction rest as [|p rest IH]; intros k; simpl; [discriminate|].
  destruct (try_port p) as [[p'|]|e] eqn:Hp; cbn [mbind result_bind].
  - intros [= <- <-]. exists p. rewrite Nat.sub_diag. simpl.
    split; [lia|]. split; [done|]. split; [done|]. constructor.
  - intros H. apply IH in H as (pi & Hk & Hl & Ht & Hf). exists pi.
    replace (j - k)%nat with (S (j - S k)) by lia. simpl.
    split; [lia|]. split; [done|]. split; [done|]. constructor; done.
  - discriminate.
Qed.

Lemma try_rd_port_Some cell r clken clkdom clkpol_ cd cp pi pi' :
  try_rd_port cell r clken clkdom clkpol_ cd cp pi = Ok (Some pi') ->
  wrmode pi = 0 /\ mapped_port pi < 0 /\
  clock_compatible clken clkdom clkpol_ cd cp pi = true /\
  exists addr data,
    extract (RD_ADDR cell) (r * ABITS cell) (ABITS cell) = Ok addr /\
    extract (RD_DATA cell) (r * WIDTH cell) (WIDTH cell) = Ok data /\
    pi' = bind_port pi r clken clkdom (sig_en pi) addr data.
Proof.
  unfold try_rd_port. intros H.
  destruct (decide (wrmode pi <> 0 \/ mapped_port pi >= 0)) as [|Hw]; [discriminate|].
  destruct (clock_compatible clken clkdom clkpol_ cd cp pi); [|discriminate].
  cbn [negb] in H.
  apply bind_Ok in H as (addr & Haddr & H).
  apply bind_Ok in H as (data & Hdata & H).
  injection H as <-.
  split; [|split; [|split]]; [ | | done | eauto 10].
  - destruct (decide (wrmode pi = 0)); [done|]. exfalso. apply Hw. by left.
  - destruct (decide (mapped_port pi < 0)); [done|]. exfalso. apply Hw. right. lia.
Qed.

(** One pass over the read ports: where it can fail, and what it does to
    the growth cursor and flag. *)
Lemma read_ports_cursor cell n : forall i st f st',
  i - 1 <= grow_read_ports_cursor st ->
  read_ports cell n i st = Ok (FailedAt f st') ->
  i <= f < i + Z.of_nat n /\
  grow_read_ports_cursor st' = Z.max (grow_read_ports_cursor st) (f - 1) /\
  try_growing_more_read_ports st' =
    (try_growing_more_read_ports st || bool_decide (grow_read_ports_cursor st < f - 1)) /\
  dup_count st' = dup_count st.
Proof.
  induction n as [|n IH]; intros i st f st' Hc H; [discriminate|].
  cbn [read_ports] in H.
  apply bind_Ok in H as (en & _ & H).
  apply bind_Ok in H as (pol & _ & H).
  apply bind_Ok in H as (clksig & _ & H).
  apply bind_Ok in H as ([[k pi']|] & _ & H).
  - destruct (decide (grow_read_ports_cursor st < i)) as [Hlt|Hlt];
      [rewrite !(bool_decide_eq_true_2 (_ < i)) in H by done
      |rewrite !(bool_decide_eq_false_2 (_ < i)) in H by done].
    + apply IH in H; [|cbn [commit_port grow_read_ports_cursor]; lia].
      cbn [commit_port grow_read_ports_cursor try_growing_more_read_ports dup_count] in H.
      destruct H as (Hf & Hcur & Htry & Hdup).
      split; [lia|]. split; [lia|]. split; [|done].
      rewrite Htry. rewrite (bool_decide_eq_true_2 (grow_read_ports_cursor st < f - 1)) by lia.
      by rewrite orb_true_r.
    + apply IH in H; [|cbn [commit_port grow_read_ports_cursor]; lia].
      cbn [commit_port grow_read_ports_cursor try_growing_more_read_ports dup_count] in H.
      destruct H as (Hf & Hcur & Htry & Hdup).
      split; [lia|]. split; [lia|]. split; [|done]. done.
  - injection H as <- <-. split; [lia|]. split; [lia|]. split; [|done].
    case_bool_decide; [lia|]. by rewrite orb_false_r.
Qed.

Lemma read_ports_dup_count cell n : forall i st st',
  read_ports cell n i st = Ok (AllMapped st') ->
  dup_count st' = dup_count st.
Proof.
  induction n as [|n IH]; intros i st st' H.
  - injection H as <-. done.
  - cbn [read_ports] in H.
    apply bind_Ok in H as (en & _ & H).
    apply bind_Ok in H as (pol & _ & H).
    apply bind_Ok in H as (clksig & _ & H).
    apply bind_Ok in H as ([[k pi']|] & _ & H); [|discriminate].
    apply IH in H. done.
Qed.

Lemma write_ports_locals cell bram n : forall i k st st',
  write_ports cell bram n i k st = Ok (Some st') ->
  grow_read_ports_cursor st' = grow_read_ports_cursor st /\
  try_growing_more_read_ports st' = try_growing_more_read_ports st /\
  dup_count st' = dup_count st.
Proof.
  induction n as [|n IH]; intros i k st st' H.
  - injection H as <-. done.
  - cbn [write_ports] in H.
    apply bind_Ok in H as (en & _ & H).
    apply bind_Ok in H as (pol & _ & H).
    apply bind_Ok in H as (clksig & _ & H).
    apply bind_Ok in H as ([[j pi']|] & _ & H); [|discriminate].
    apply IH in H. done.
Qed.

Lemma write_phase_locals cell bram st1 :
  write_phase cell bram = Ok (Some st1) ->
  grow_read_ports_cursor st1 = -1 /\ try_growing_more_read_ports st1 = false /\
  dup_count st1 = 1.
Proof. intros H. apply write_ports_locals in H. done. Qed.

Lemma StronglySorted_snoc {A} (R : A -> A -> Prop) l y :
  StronglySorted R l -> Forall (fun x => R x y) l -> StronglySorted R (l ++ [y]).
Proof.
  induction l as [|x l IH]; simpl; intros Hs Hall.
  - repeat constructor.
  - apply StronglySorted_inv in Hs as [Hs Hx]. inversion Hall; subst.
    constructor; [by apply IH|]. apply Forall_app. split; [done|]. by constructor.
Qed.

(** What holds whenever a pass over the read ports starts. *)
Lemma round_start_locals cell bram st1 grown st :
  grow_read_ports_cursor st1 = -1 -> try_growing_more_read_ports st1 = false ->
  dup_count st1 = 1 ->
  round_start cell bram st1 grown st ->
  try_growing_more_read_ports st = false /\
  dup_count st = 1 + Z.of_nat (List.length grown) /\
  StronglySorted Z.lt grown /\
  Forall (fun f => 1 <= f < RD_PORTS cell) grown /\
  -1 <= grow_read_ports_cursor st < Z.of_nat (Z.to_nat (RD_PORTS cell)) /\
  Forall (fun f => f - 1 <= grow_read_ports_cursor st) grown.
Proof.
  intros Hc1 Ht1 Hd1 H. induction H as [|grown st f st' Hrs IH Hround Htry].
  - rewrite Hc1. simpl. repeat split; try done; try constructor; lia.
  - destruct IH as (Ht & Hd & Hsorted & Hrange & Hcur & Hprev).
    apply read_ports_cursor in Hround as (Hf & Hcur' & Htry' & Hdup); [|lia].
    rewrite Htry, Ht in Htry'. simpl in Htry'. symmetry in Htry'.
    apply bool_decide_eq_true in Htry'.
    cbn [grow_read_ports try_growing_more_read_ports dup_count grow_read_ports_cursor].
    split; [done|]. split; [rewrite length_app; simpl; lia|].
    split; [|split; [|split]].
    + apply StronglySorted_snoc; [done|].
      eapply Forall_impl; [exact Hprev|]. simpl. intros g Hg. lia.
    + apply Forall_app. split; [done|]. constructor; [lia|constructor].
    + lia.
    + apply Forall_app. split.
      * eapply Forall_impl; [exact Hprev|]. simpl. intros g Hg. lia.
      * constructor; [lia|constructor].
Qed.

Lemma read_phase_fuel cell ps bcd bcp fuel : forall st r,
  read_phase fuel cell ps bcd bcp st = Some r ->
  forall fuel', (fuel <= fuel')%nat -> read_phase fuel' cell ps bcd bcp st = Some r.
Proof.
  induction fuel as [|fuel IH]; intros st r H fuel' Hle; [discriminate|].
  destruct fuel' as [|fuel']; [lia|].
  cbn [read_phase] in *.
  destruct (read_ports cell (Z.to_nat (RD_PORTS cell)) 0 st) as [[st'|f st']|e]; try done.
  destruct (try_growing_more_read_ports st'); [|done].
  eapply IH; [exact H | lia].
Qed.

Lemma read_phase_enough_fuel cell bram st1 :
  grow_read_ports_cursor st1 = -1 -> try_growing_more_read_ports st1 = false ->
  dup_count st1 = 1 ->
  forall fuel grown st,
    round_start cell bram st1 grown st ->
    Z.of_nat (Z.to_nat (RD_PORTS cell)) - grow_read_ports_cursor st <= Z.of_nat fuel ->
    exists r, read_phase fuel cell (prescan (make_portinfos bram))
                (clock_domains st1) (clock_polarities st1) st = Some r.
Proof.
  intros Hc1 Ht1 Hd1. induction fuel as [|fuel IH]; intros grown st Hrs Hfuel.
  - apply round_start_locals in Hrs as (_ & _ & _ & _ & Hcur & _); [lia | done..].
  - cbn [read_phase].
    destruct (read_ports cell (Z.to_nat (RD_PORTS cell)) 0 st) as [[st'|f st']|e] eqn:Hround;
      [eauto | | eauto].
    destruct (try_growing_more_read_ports st') eqn:Htry; [|eauto].
    eapply IH; [eapply start_grown; eauto|].
    cbn [grow_read_ports grow_read_ports_cursor].
    pose proof (round_start_locals _ _ _ _ _ Hc1 Ht1 Hd1 Hrs) as (Ht & _ & _ & _ & Hcur & _).
    apply read_ports_cursor in Hround as (Hf & Hcur' & Htry' & _); [|lia].
    rewrite Htry, Ht in Htry'. simpl in Htry'. symmetry in Htry'.
    apply bool_decide_eq_true in Htry'. lia.
Qed.

(** A run of the read phase that maps every read port ends with a pass
    from one of the [round_start] states. *)
Lemma read_phase_success cell bram st1 fuel : forall grown st st_final,
  round_start cell bram st1 grown st ->
  read_phase fuel cell (prescan (make_portinfos bram))
    (clock_domains st1) (clock_polarities st1) st = Some (Ok (Some st_final)) ->
  exists grown' st_r,
    round_start cell bram st1 grown' st_r /\
    read_ports cell (Z.to_nat (RD_PORTS cell)) 0 st_r = Ok (AllMapped st_final).
Proof.
  induction fuel as [|fuel IH]; intros grown st st_final Hrs H; [discriminate|].
  cbn [read_phase] in H.
  destruct (read_ports cell (Z.to_nat (RD_PORTS cell)) 0 st) as [[st'|f st']|e] eqn:Hround.
  - injection H as <-. eauto.
  - destruct (try_growing_more_read_ports st') eqn:Htry; [|discriminate].
    eapply IH; [|exact H]. eapply start_grown; eauto.
  - discriminate.
Qed.

Lemma sorted_range_length (l : list Z) : forall a b,
  StronglySorted Z.lt l -> Forall (fun x => a <= x < b) l ->
  Z.of_nat (List.length l) <= Z.max 0 (b - a).
Proof.
  induction l as [|x l IH]; intros a b Hs Hr; simpl; [lia|].
  apply StronglySorted_inv in Hs as [Hs Hx]. inversion Hr as [|? ? Hxr Hlr]; subst.
  assert (Z.of_nat (List.length l) <= Z.max 0 (b - (x + 1))); [|lia].
  apply IH; [done|]. rewrite Forall_forall in *. intros y Hy.
  specialize (Hx y Hy). specialize (Hlr y Hy). simpl in *. lia.
Qed.

(** One unit of fuel more than there are read ports is enough for the
    port assignment, and more fuel does not change its outcome. *)
Lemma assign_ports_total cell bram :
  exists r, forall fuel, (Z.to_nat (RD_PORTS cell) < fuel)%nat ->
    assign_ports fuel cell bram = Some r.
Proof.
  unfold assign_ports.
  destruct (write_phase cell bram) as [[st1|]|e] eqn:Hw; [|eauto..].
  apply write_phase_locals in Hw as (Hc1 & Ht1 & Hd1).
  destruct (read_phase_enough_fuel cell bram st1 Hc1 Ht1 Hd1
              (S (Z.to_nat (RD_PORTS cell))) [] st1) as (r & Hr);
    [constructor | lia |].
  exists r. intros fuel Hfuel. eapply read_phase_fuel; [exact Hr | lia].
Qed.

(** C7: the port assignment terminates.  One unit of fuel more than there
    are read ports is always enough, and the outcome does not depend on
    the fuel beyond that.  The read ports whose failure led to a
    duplication step form a strictly increasing sequence within
    [1 .. RD_PORTS-1], so every read port triggers at most one
    duplication, there are at most as many duplication steps as read
    ports, and [dup_count] counts them.  A duplication step is taken only
    if the pass mapped a read port later than all those mapped before. *)
Theorem port_assignment_terminates cell bram :
  (exists r, forall fuel, (Z.to_nat (RD_PORTS cell) < fuel)%nat ->
     assign_ports fuel cell bram = Some r) /\
  (forall st1 grown st,
     write_phase cell bram = Ok (Some st1) ->
     round_start cell bram st1 grown st ->
     StronglySorted Z.lt grown /\
     Forall (fun f => 1 <= f < RD_PORTS cell) grown /\
     Z.of_nat (List.length grown) <= Z.max 0 (RD_PORTS cell) /\
     dup_count st = 1 + Z.of_nat (List.length grown)) /\
  (forall st1 grown st f st',
     write_phase cell bram = Ok (Some st1) ->
     round_start cell bram st1 grown st ->
     read_ports cell (Z.to_nat (RD_PORTS cell)) 0 st = Ok (FailedAt f st') ->
     try_growing_more_read_ports st' = true ->
     grow_read_ports_cursor st < f - 1 /\ grow_read_ports_cursor st' = f - 1).
Proof.
  split; [|split].
  - apply assign_ports_total.
  - intros st1 grown st Hw Hrs.
    apply write_phase_locals in Hw as (Hc1 & Ht1 & Hd1).
    apply round_start_locals in Hrs as (_ & Hd & Hs & Hr & _ & _); [|done..].
    split; [done|]. split; [done|]. split; [|done].
    pose proof (sorted_range_length grown 1 (RD_PORTS cell) Hs Hr). lia.
  - intros st1 grown st f st' Hw Hrs Hround Htry.
    apply write_phase_locals in Hw as (Hc1 & Ht1 & Hd1).
    apply round_start_locals in Hrs as (Ht & _ & _ & _ & Hcur & _); [|done..].
    apply read_ports_cursor in Hround as (Hf & Hcur' & Htry' & _); [|lia].
    rewrite Htry, Ht in Htry'. simpl in Htry'. symmetry in Htry'.
    apply bool_decide_eq_true in Htry'. lia.
Qed.


(** ** Clock cohorts (C6) *)

Lemma elem_of_list_insert_inv {A} (l : list A) k x y :
  x ∈ <[k := y]> l -> x = y \/ x ∈ l.
Proof.
  revert k. induction l as [|z l IH]; intros k H; simpl in H.
  - by apply elem_of_nil in H.
  - destruct k as [|k]; simpl in H.
    + apply elem_of_cons in H as [->|H]; [by left|]. right. by right.
    + apply elem_of_cons in H as [->|H]; [right; by left|].
      apply IH in H as [->|H]; [by left|]. right. by right.
Qed.

Lemma clock_compatible_true clken clkdom clkpol_ cd cp pi :
  clock_compatible clken clkdom clkpol_ cd cp pi = true ->
  if clken then
    clocks pi <> 0 /\
    (forall d, cd !! clocks pi = Some d -> d = clkdom) /\
    (forall p, cp !! clkpol pi = Some p -> p = clkpol_)
  else clocks pi = 0.
Proof.
  unfold clock_compatible. destruct clken.
  - destruct (decide (clocks pi = 0)); [discriminate|].
    case_bool_decide as H1; [discriminate|].
    case_bool_decide as H2; [discriminate|]. intros _.
    split; [done|]. split.
    + intros d Hd. destruct (decide (d = clkdom)); [done|].
      exfalso. apply H1. rewrite Hd. split; [eauto|congruence].
    + intros p Hp. destruct (decide (p = clkpol_)); [done|].
      exfalso. apply H2. rewrite Hp. split; [eauto|congruence].
  - destruct (decide (clocks pi <> 0)) as [|H]; [discriminate|]. intros _.
    by apply dec_stable in H.
Qed.

(** Binding a compatible PortInfo keeps every PortInfo consistent with
    the clock cohort map. *)
Lemma commit_port_clock_bound st k pi w clken clkdom clkpol_ en addr data cur try :
  clock_compatible clken clkdom clkpol_ (clock_domains st) (clock_polarities st) pi = true ->
  Forall (clock_bound (clock_domains st)) (portinfos st) ->
  let st' := commit_port st k (bind_port pi w clken clkdom en addr data) clken clkdom cur try in
  Forall (clock_bound (clock_domains st')) (portinfos st').
Proof.
  intros Hcompat Hall st'. apply clock_compatible_true in Hcompat.
  rewrite Forall_forall in *. intros q Hq.
  cbn [st' commit_port portinfos clock_domains] in *.
  apply elem_of_list_insert_inv in Hq as [->|Hq].
  - intros _ Hclk. cbn [bind_port clocks sig_clock effective_clkpol] in *.
    destruct clken; [|by destruct Hclk].
    exists clkdom.2. split; [done|]. rewrite lookup_insert_eq. by destruct clkdom.
  - intros Hm Hclk. destruct (Hall q Hq Hm Hclk) as (pol & Hpol & Hcd).
    exists pol. split; [done|].
    destruct clken; [|done]. cbn [bind_port clocks].
    destruct Hcompat as (_ & Hsame & _).
    destruct (decide (clocks pi = clocks q)) as [Heq|Hne].
    + rewrite Heq, lookup_insert_eq. rewrite Heq in Hsame.
      by rewrite (Hsame _ Hcd).
    + by rewrite lookup_insert_ne.
Qed.

Lemma bind_port_wr_cohorts ps pi w clken clkdom en addr data :
  wr_cohorts ps pi -> wr_cohorts ps (bind_port pi w clken clkdom en addr data).
Proof. done. Qed.

Lemma find_port_lookup try_port (l : list portinfo_t) start j pi' :
  find_port try_port (drop start l) start = Ok (Some (j, pi')) ->
  exists pi, l !! j = Some pi /\ try_port pi = Ok (Some pi').
Proof.
  intros H. apply find_port_Some in H as (pi & Hle & Hl & Ht & _).
  exists pi. split; [|done]. rewrite lookup_drop in Hl.
  by replace (start + (j - start))%nat with j in Hl by lia.
Qed.

(** The invariants of the PortInfo vector that the loops maintain:
    consistency with the current cohort map, the cohort ids of the write
    ports, and consistency of the write-mode PortInfos with [bcd]. *)
Lemma write_ports_inv cell bram ps n : forall i k st st',
  write_ports cell bram n i k st = Ok (Some st') ->
  Forall (clock_bound (clock_domains st)) (portinfos st) ->
  Forall (wr_cohorts ps) (portinfos st) ->
  Forall (clock_bound (clock_domains st')) (portinfos st') /\
  Forall (wr_cohorts ps) (portinfos st').
Proof.
  induction n as [|n IH]; intros i k st st' H H1 H2.
  - injection H as <-. done.
  - cbn [write_ports] in H.
    apply bind_Ok in H as (en & _ & H).
    apply bind_Ok in H as (pol & _ & H).
    apply bind_Ok in H as (clksig & _ & H).
    apply bind_Ok in H as ([[j pi']|] & Hfind & H); [|discriminate].
    apply find_port_lookup in Hfind as (pi & Hl & Htry).
    apply try_wr_port_Some in Htry as (_ & Hcompat & sen & addr & data & _ & _ & _ & ->).
    apply IH in H; [done| |].
    + eapply commit_port_clock_bound; eauto.
    + cbn [commit_port portinfos]. apply Forall_insert; [done|].
      apply bind_port_wr_cohorts. rewrite Forall_forall in H2. apply H2.
      eapply list_elem_of_lookup_2; eauto.
Qed.

Lemma read_ports_inv cell ps bcd n : forall i st r,
  read_ports cell n i st = Ok r ->
  Forall (clock_bound (clock_domains st)) (portinfos st) ->
  Forall (wr_cohorts ps) (portinfos st) ->
  Forall (fun pi => wrmode pi <> 0 -> clock_bound bcd pi) (portinfos st) ->
  let st' := match r with AllMapped st' => st' | FailedAt _ st' => st' end in
  Forall (clock_bound (clock_domains st')) (portinfos st') /\
  Forall (wr_cohorts ps) (portinfos st') /\
  Forall (fun pi => wrmode pi <> 0 -> clock_bound bcd pi) (portinfos st').
Proof.
  induction n as [|n IH]; intros i st r H H1 H2 H3.
  - injection H as <-. done.
  - cbn [read_ports] in H.
    apply bind_Ok in H as (en & _ & H).
    apply bind_Ok in H as (pol & _ & H).
    apply bind_Ok in H as (clksig & _ & H).
    apply bind_Ok in H as ([[j pi']|] & Hfind & H); [|injection H as <-; done].
    apply (find_port_lookup _ _ 0%nat) in Hfind as (pi & Hl & Htry).
    apply try_rd_port_Some in Htry as (Hw & _ & Hcompat & addr & data & _ & _ & ->).
    apply IH in H; [done| | |].
    + eapply commit_port_clock_bound; eauto.
    + cbn [commit_port portinfos]. apply Forall_insert; [done|].
      apply bind_port_wr_cohorts. rewrite Forall_forall in H2. apply H2.
      eapply list_elem_of_lookup_2; eauto.
    + cbn [commit_port portinfos]. apply Forall_insert; [done|].
      intros Hw'. done.
Qed.

Lemma prescan_step_mono ps pi :
  clocks_wr_ports ps ⊆ clocks_wr_ports (prescan_step ps pi) /\
  clkpol_wr_ports ps ⊆ clkpol_wr_ports (prescan_step ps pi).
Proof.
  unfold prescan_step; simpl. repeat case_decide; set_solver.
Qed.

Lemma prescan_foldl_mono l : forall ps,
  clocks_wr_ports ps ⊆ clocks_wr_ports (foldl prescan_step ps l) /\
  clkpol_wr_ports ps ⊆ clkpol_wr_ports (foldl prescan_step ps l).
Proof.
  induction l as [|pi l IH]; intros ps; simpl; [done|].
  pose proof (IH (prescan_step ps pi)) as [H1 H2].
  destruct (prescan_step_mono ps pi) as [H3 H4].
  split; etrans; eauto.
Qed.

Lemma prescan_foldl_wr_cohorts l : forall ps,
  Forall (wr_cohorts (foldl prescan_step ps l)) l.
Proof.
  induction l as [|pi l IH]; intros ps; simpl; constructor; [|apply IH].
  intros Hw. destruct (prescan_foldl_mono l (prescan_step ps pi)) as [H1 H2].
  split.
  - apply H1. unfold prescan_step; simpl. case_decide; [done|]. set_solver.
  - intros Hp. apply H2. unfold prescan_step; simpl.
    case_decide; [done|]. case_decide; [|done]. set_solver.
Qed.

Lemma prescan_wr_cohorts l : Forall (wr_cohorts (prescan l)) l.
Proof. apply prescan_foldl_wr_cohorts. Qed.

Lemma next_replica_wr ps pi :
  wr_cohorts ps pi -> wrmode pi <> 0 ->
  clocks (next_replica ps pi) = clocks pi /\ clkpol (next_replica ps pi) = clkpol pi.
Proof.
  intros Hc Hw. destruct (Hc Hw) as [H1 H2]. cbn [next_replica clocks clkpol].
  split.
  - case_decide as H; [|done]. by destruct H.
  - case_decide as H; [|done]. destruct H as [H3 H4]. by specialize (H2 H3).
Qed.

Lemma clear_binding_wr pi : wrmode pi <> 0 -> clear_binding pi = pi.
Proof. intros H. unfold clear_binding. by case_decide. Qed.

Lemma clear_binding_rd pi :
  wrmode pi = 0 ->
  mapped_port (clear_binding pi) = -1 /\ sig_clock (clear_binding pi) = SigBit_default /\
  sig_addr (clear_binding pi) = [] /\ sig_data (clear_binding pi) = [] /\
  sig_en (clear_binding pi) = [].
Proof. intros H. unfold clear_binding. by case_decide. Qed.

Lemma clear_binding_attrs pi :
  group (clear_binding pi) = group pi /\ index (clear_binding pi) = index pi /\
  dupidx (clear_binding pi) = dupidx pi /\ wrmode (clear_binding pi) = wrmode pi /\
  enable (clear_binding pi) = enable pi /\ transp (clear_binding pi) = transp pi /\
  clocks (clear_binding pi) = clocks pi /\ clkpol (clear_binding pi) = clkpol pi.
Proof. unfold clear_binding. by case_decide. Qed.

Lemma elem_of_grow ps bcd bcp st q :
  q ∈ portinfos (grow_read_ports ps bcd bcp st) <->
  exists pi, pi ∈ portinfos st /\
    (q = clear_binding pi \/
     (dupidx pi = dup_count st - 1 /\ q = next_replica ps (clear_binding pi))).
Proof.
  cbn [grow_read_ports portinfos]. rewrite list_elem_of_bind.
  split; intros (pi & H1 & H2).
  - exists pi. split; [done|]. unfold grow_portinfo in H1.
    destruct (clear_binding_attrs pi) as (_ & _ & Hd & _). rewrite Hd in H1.
    destruct (decide (dupidx pi = dup_count st - 1)) as [Hdup|Hdup].
    + apply elem_of_cons in H1 as [->|H1]; [by left|].
      apply list_elem_of_singleton in H1. right. done.
    + apply list_elem_of_singleton in H1. by left.
  - exists pi. split; [|done]. unfold grow_portinfo.
    destruct (clear_binding_attrs pi) as (_ & _ & Hd & _). rewrite Hd.
    destruct H2 as [->|[Hdup ->]].
    + destruct (decide (dupidx pi = dup_count st - 1)); [by left|].
      by apply list_elem_of_singleton.
    + destruct (decide (dupidx pi = dup_count st - 1)); [|done]. right. by left.
Qed.

Lemma grow_inv ps bcd bcp st :
  Forall (wr_cohorts ps) (portinfos st) ->
  Forall (fun pi => wrmode pi <> 0 -> clock_bound bcd pi) (portinfos st) ->
  let st' := grow_read_ports ps bcd bcp st in
  Forall (clock_bound (clock_domains st')) (portinfos st') /\
  Forall (wr_cohorts ps) (portinfos st') /\
  Forall (fun pi => wrmode pi <> 0 -> clock_bound bcd pi) (portinfos st').
Proof.
  intros H2 H3 st'. rewrite !Forall_forall in *.
  assert (forall q, q ∈ portinfos st' ->
            wr_cohorts ps q /\
            (wrmode q <> 0 -> clock_bound bcd q) /\
            (wrmode q = 0 -> mapped_port q = -1)) as Hq.
  { intros q Hq. apply elem_of_grow in Hq as (pi & Hpi & Hq).
    destruct (decide (wrmode pi = 0)) as [Hw|Hw].
    - destruct (clear_binding_rd pi Hw) as (Hm & _).
      destruct (clear_binding_attrs pi) as (_ & _ & _ & Hw' & _).
      destruct Hq as [->|[_ ->]].
      + split; [|split]; [intros Hx; congruence | intros Hx; congruence | done].
      + split; [|split]; cbn [next_replica wrmode mapped_port];
          [intros Hx; simpl in Hx; congruence | intros Hx; congruence | done].
    - rewrite (clear_binding_wr pi Hw) in Hq.
      destruct Hq as [->|[_ ->]].
      + split; [|split]; [by apply H2 | intros _; by apply H3 | done].
      + destruct (next_replica_wr ps pi (H2 _ Hpi) Hw) as [Hc Hp].
        split; [|split].
        * intros _. rewrite Hc, Hp. by apply (H2 _ Hpi).
        * intros _ Hm Hclk. rewrite Hc in *. apply (H3 _ Hpi Hw Hm Hclk).
        * cbn [next_replica wrmode]. done. }
  split; [|split]; intros q Hin; destruct (Hq q Hin) as (Ha & Hb & Hc); try done.
  cbn [st' grow_read_ports clock_domains].
  destruct (decide (wrmode q = 0)) as [Hw|Hw].
  - intros Hm. rewrite (Hc Hw) in Hm. lia.
  - by apply Hb.
Qed.

Lemma initial_unmapped bram : Forall (fun pi => mapped_port pi = -1) (make_portinfos bram).
Proof.
  rewrite Forall_forall. intros pi Hpi. unfold make_portinfos in Hpi.
  apply list_elem_of_bind in Hpi as (i & Hpi & _).
  apply list_elem_of_bind in Hpi as (j & Hpi & _).
  apply list_elem_of_singleton in Hpi. by subst.
Qed.

Lemma write_phase_inv cell bram st1 :
  write_phase cell bram = Ok (Some st1) ->
  Forall (clock_bound (clock_domains st1)) (portinfos st1) /\
  Forall (wr_cohorts (prescan (make_portinfos bram))) (portinfos st1).
Proof.
  intros H. eapply write_ports_inv; [exact H| |].
  - cbn [initial_assignment portinfos clock_domains].
    eapply Forall_impl; [apply initial_unmapped|]. intros pi Hm Hge. simpl in *. lia.
  - apply prescan_wr_cohorts.
Qed.

Lemma round_start_inv cell bram st1 grown st :
  write_phase cell bram = Ok (Some st1) ->
  round_start cell bram st1 grown st ->
  Forall (clock_bound (clock_domains st)) (portinfos st) /\
  Forall (wr_cohorts (prescan (make_portinfos bram))) (portinfos st) /\
  Forall (fun pi => wrmode pi <> 0 -> clock_bound (clock_domains st1) pi) (portinfos st).
Proof.
  intros Hw Hrs. induction Hrs as [|grown st f st' Hrs IH Hround Htry].
  - destruct (write_phase_inv _ _ _ Hw) as [H1 H2]. split; [done|]. split; [done|].
    eapply Forall_impl; [exact H1|]. intros pi H _. done.
  - destruct IH as (H1 & H2 & H3).
    pose proof (read_ports_inv _ _ _ _ _ _ _ Hround H1 H2 H3) as (H1' & H2' & H3').
    simpl in H1', H2', H3'. by apply grow_inv.
Qed.

(** C6, as the code has it: after a successful port assignment, every
    bound PortInfo ([mapped_port >= 0]) with [clocks = k > 0] finds its own
    clock signal and effective polarity under [k] in [clock_domains]. *)
Theorem bound_ports_clock_domain fuel cell bram st pi :
  assign_ports fuel cell bram = Some (Ok (Some st)) ->
  pi ∈ portinfos st -> 0 <= mapped_port pi -> 0 < clocks pi ->
  exists pol, effective_clkpol pi = Some pol /\
              clock_domains st !! clocks pi = Some (sig_clock pi, pol).
Proof.
  unfold assign_ports. intros H Hin Hm Hk.
  destruct (write_phase cell bram) as [[st1|]|e] eqn:Hw; [|discriminate..].
  apply (read_phase_success cell bram st1 fuel [] st1) in H as (grown & st_r & Hrs & Hround);
    [|constructor].
  destruct (round_start_inv _ _ _ _ _ Hw Hrs) as (H1 & H2 & H3).
  pose proof (read_ports_inv _ _ _ _ _ _ _ Hround H1 H2 H3) as (H1' & _).
  simpl in H1'. rewrite Forall_forall in H1'. apply (H1' pi Hin Hm). lia.
Qed.


(** ** The duplication step (C1) *)

(** C1 as stated fails: on the three-read-port memory every read-mode
    PortInfo, also those of replica 0, is unbound by the duplication step
    (B2 of replica 0 held read port 1), and the retry binds read port 1 to
    another PortInfo than before (B2 of replica 0 ends up with read port 2). *)
Lemma growth_rebinds_earlier_read_ports :
  exists st1 st' st_final,
    write_phase ex_mem_1w3r ex_bram_1w2r = Ok (Some st1) /\
    read_ports ex_mem_1w3r (Z.to_nat (RD_PORTS ex_mem_1w3r)) 0 st1 = Ok (FailedAt 2 st') /\
    try_growing_more_read_ports st' = true /\
    binding_of (portinfos st') 1 1 0 = Some 1 /\
    ~ keeps_read_bindings (portinfos st')
        (portinfos (grow_read_ports (prescan (make_portinfos ex_bram_1w2r))
                      (clock_domains st1) (clock_polarities st1) st')) /\
    assign_ports 4 ex_mem_1w3r ex_bram_1w2r = Some (Ok (Some st_final)) /\
    binding_of (portinfos st_final) 1 1 0 = Some 2 /\
    ~ keeps_read_bindings (portinfos st') (portinfos st_final).
Proof.
  eexists. eexists. eexists.
  split; [vm_compute; reflexivity|].
  split; [vm_compute; reflexivity|].
  split; [reflexivity|].
  split; [vm_compute; reflexivity|].
  split.
  { intros H. unfold keeps_read_bindings in H. cbn [portinfos] in H.
    match type of H with
    | forall pi, pi ∈ [_; _; ?p] -> _ =>
        specialize (H p ltac:(do 2 right; left) eq_refl ltac:(simpl; lia))
    end.
    vm_compute in H. discriminate. }
  split; [vm_compute; reflexivity|].
  split; [vm_compute; reflexivity|].
  intros H. unfold keeps_read_bindings in H. cbn [portinfos] in H.
  match type of H with
  | forall pi, pi ∈ [_; _; ?p] -> _ =>
      specialize (H p ltac:(do 2 right; left) eq_refl ltac:(simpl; lia))
  end.
  vm_compute in H. discriminate.
Qed.

(** C1, as the code has it.  When a pass over the read ports fails at read
    port [f] with [try_growing_more_read_ports] set, exactly one
    duplication step is made and the next pass starts again at read port 0.
    The step unbinds every read-mode PortInfo, of every replica; each
    PortInfo of the last replica gets a copy in the new replica; the copy
    of a write-mode PortInfo has the same cohort ids and binding state; the
    copy of a read-mode PortInfo has its cohort ids shifted unless a write
    port uses them; the cohort maps are those the write phase left. *)
Theorem duplication_step cell bram st1 grown st f st' fuel :
  write_phase cell bram = Ok (Some st1) ->
  round_start cell bram st1 grown st ->
  read_ports cell (Z.to_nat (RD_PORTS cell)) 0 st = Ok (FailedAt f st') ->
  try_growing_more_read_ports st' = true ->
  let ps := prescan (make_portinfos bram) in
  let bcd := clock_domains st1 in
  let bcp := clock_polarities st1 in
  let g := grow_read_ports ps bcd bcp st' in
  read_phase (S (S fuel)) cell ps bcd bcp st =
    match read_ports cell (Z.to_nat (RD_PORTS cell)) 0 g with
    | Error e => Some (Error e)
    | Ok (AllMapped st'') => Some (Ok (Some st''))
    | Ok (FailedAt _ st'') =>
        if try_growing_more_read_ports st''
        then read_phase fuel cell ps bcd bcp (grow_read_ports ps bcd bcp st'')
        else Some (Ok None)
    end /\
  dup_count g = dup_count st' + 1 /\
  clock_domains g = clock_domains st1 /\
  clock_polarities g = clock_polarities st1 /\
  try_growing_more_read_ports g = false /\
  (forall q, q ∈ portinfos g -> wrmode q = 0 ->
     mapped_port q = -1 /\ sig_clock q = SigBit_default /\
     sig_addr q = [] /\ sig_data q = [] /\ sig_en q = []) /\
  (forall pi, pi ∈ portinfos st' -> wrmode pi <> 0 ->
     pi ∈ portinfos g /\
     (dupidx pi = dup_count st' - 1 ->
      exists q, q ∈ portinfos g /\ dupidx q = dup_count st' /\
        group q = group pi /\ index q = index pi /\ wrmode q = wrmode pi /\
        enable q = enable pi /\ transp q = transp pi /\
        clocks q = clocks pi /\ clkpol q = clkpol pi /\
        sig_clock q = sig_clock pi /\ sig_addr q = sig_addr pi /\
        sig_data q = sig_data pi /\ sig_en q = sig_en pi /\
        effective_clkpol q = effective_clkpol pi /\ mapped_port q = mapped_port pi)) /\
  (forall pi, pi ∈ portinfos st' -> wrmode pi = 0 -> dupidx pi = dup_count st' - 1 ->
     exists q, q ∈ portinfos g /\ dupidx q = dup_count st' /\
       group q = group pi /\ index q = index pi /\ wrmode q = 0 /\
       clocks q = (if decide (clocks pi <> 0 /\ clocks pi ∉ clocks_wr_ports ps)
                   then clocks pi + clocks_max ps else clocks pi) /\
       clkpol q = (if decide (clkpol pi > 1 /\ clkpol pi ∉ clkpol_wr_ports ps)
                   then clkpol pi + clkpol_max ps else clkpol pi)) /\
  (forall q, q ∈ portinfos g -> dupidx q <> dup_count st' ->
     exists pi, pi ∈ portinfos st' /\ q = clear_binding pi).
Proof.
  intros Hw Hrs Hround Htry ps bcd bcp g.
  destruct (round_start_inv _ _ _ _ _ Hw Hrs) as (H1 & H2 & H3).
  pose proof (read_ports_inv _ _ _ _ _ _ _ Hround H1 H2 H3) as (_ & H2' & _).
  simpl in H2'. rewrite Forall_forall in H2'.
  split; [|split; [|split; [|split; [|split; [|split; [|split; [|split]]]]]]]; try done.
  - cbn [read_phase]. rewrite Hround, Htry. reflexivity.
  - intros q Hq Hwq. apply elem_of_grow in Hq as (pi & Hpi & Hq).
    destruct (clear_binding_attrs pi) as (_ & _ & _ & Hw' & _).
    destruct Hq as [->|[_ ->]].
    + apply clear_binding_rd. congruence.
    + cbn [next_replica wrmode mapped_port sig_clock sig_addr sig_data sig_en] in *.
      apply clear_binding_rd. congruence.
  - intros pi Hpi Hwpi. split.
    + apply elem_of_grow. exists pi. split; [done|]. left. by rewrite clear_binding_wr.
    + intros Hdup. exists (next_replica ps pi). split.
      * apply elem_of_grow. exists pi. split; [done|]. right.
        by rewrite clear_binding_wr.
      * destruct (next_replica_wr ps pi (H2' _ Hpi) Hwpi) as [Hc Hp].
        rewrite Hc, Hp. cbn [next_replica dupidx]. repeat split; try done. lia.
  - intros pi Hpi Hwpi Hdup. exists (next_replica ps (clear_binding pi)).
    destruct (clear_binding_attrs pi) as (Hg & Hi & Hd & Hw' & _ & _ & Hc & Hp).
    split; [apply elem_of_grow; exists pi; split; [done|]; by right|].
    cbn [next_replica dupidx group index wrmode clocks clkpol].
    rewrite Hg, Hi, Hd, Hw', Hc, Hp. repeat split; try done. lia.
  - intros q Hq Hdq. apply elem_of_grow in Hq as (pi & Hpi & Hq).
    exists pi. split; [done|]. destruct Hq as [->|[Hd ->]]; [done|].
    exfalso. apply Hdq. cbn [next_replica dupidx].
    destruct (clear_binding_attrs pi) as (_ & _ & Hd' & _). rewrite Hd'. lia.
Qed.


(** ** The grid (C3, C8) *)

Lemma for_loop_Ok {B} fuel cond (body : Z -> B -> option (result B)) : forall i b b',
  for_loop fuel cond body i b = Some (Ok b') ->
  exists n : nat,
    Forall (fun j => cond j = true) (seqZ i (Z.of_nat n)) /\
    cond (i + Z.of_nat n) = false /\
    for_each body (seqZ i (Z.of_nat n)) b = Some (Ok b').
Proof.
  induction fuel as [|fuel IH]; intros i b b' H; [discriminate|].
  cbn [for_loop] in H. destruct (cond i) eqn:Hc.
  - destruct (body i b) as [[b1|e]|] eqn:Hb; [|discriminate..].
    apply IH in H as (n & Hall & Hend & Hrun). exists (S n).
    rewrite Nat2Z.inj_succ, seqZ_cons by lia.
    replace (Z.pred (Z.succ (Z.of_nat n))) with (Z.of_nat n) by lia.
    replace (i + Z.succ (Z.of_nat n)) with (Z.succ i + Z.of_nat n) by lia.
    replace (i + 1) with (Z.succ i) in * by lia.
    split; [by constructor|]. split; [done|]. cbn [for_each]. by rewrite Hb.
  - injection H as <-. exists 0%nat. replace (i + Z.of_nat 0) with i by lia.
    split; [constructor|]. done.
Qed.

(** Enough fuel lets a counting loop run to its end. *)
Lemma for_loop_enough {B} cond (body : Z -> B -> option (result B)) (n : nat) :
  forall fuel i b,
    Forall (fun j => cond j = true) (seqZ i (Z.of_nat n)) ->
    cond (i + Z.of_nat n) = false ->
    (n < fuel)%nat ->
    (forall j b0, (exists r0, body j b0 = Some r0)) ->
    exists r, for_loop fuel cond body i b = Some r.
Proof.
  induction n as [|n IH]; intros fuel i b Hall Hend Hfuel Hbody.
  - destruct fuel as [|fuel]; [lia|]. cbn [for_loop].
    replace (i + Z.of_nat 0) with i in Hend by lia. rewrite Hend. eauto.
  - destruct fuel as [|fuel]; [lia|]. cbn [for_loop].
    rewrite Nat2Z.inj_succ, seqZ_cons in Hall by lia.
    inversion Hall as [|? ? Hi Hrest]; subst. rewrite Hi.
    destruct (Hbody i b) as ([b1|e] & Hb); rewrite Hb; [|eauto].
    apply (IH fuel (i + 1) b1); [| |lia|done].
    + replace (Z.pred (Z.succ (Z.of_nat n))) with (Z.of_nat n) in Hrest by lia.
      by replace (i + 1) with (Z.succ i) by lia.
    + replace (i + 1 + Z.of_nat n) with (i + Z.of_nat (S n)) by lia. done.
Qed.

Lemma grid_loop_count (w d : Z) (n : nat) :
  0 <= w ->
  Forall (fun j => bool_decide (j * d < w) = true) (seqZ 0 (Z.of_nat n)) ->
  bool_decide ((0 + Z.of_nat n) * d < w) = false ->
  Z.of_nat n = cdiv w d.
Proof.
  intros Hw Hall Hend. apply bool_decide_eq_false in Hend.
  rewrite Forall_forall in Hall. unfold cdiv.
  destruct n as [|n].
  - simpl in Hend. assert (w = 0) as -> by lia. simpl. by rewrite Zdiv_0_l.
  - assert (0 * d < w) as H0.
    { eapply bool_decide_eq_true_1, Hall, elem_of_seqZ. lia. }
    assert (Z.of_nat n * d < w) as Hn.
    { eapply bool_decide_eq_true_1, Hall, elem_of_seqZ. lia. }
    assert (0 < d) by nia.
    assert ((- w) `div` d = - Z.of_nat (S n)); [|lia].
    symmetry. apply Z.div_unique with (Z.of_nat (S n) * d - w); nia.
Qed.

Lemma foldM_emits {A B} (f : B -> A -> result B) (proj : B -> Module)
    (P : call -> Prop) (inst : A -> list (string * string)) (l : list A) :
  (forall b a b', f b a = Ok b' -> emits P (inst a) (proj b) (proj b')) ->
  forall b b', foldM f l b = Ok b' -> emits P (l ≫= inst) (proj b) (proj b').
Proof.
  intros Hf. induction l as [|a l IH]; intros b b' H; simpl in H.
  - injection H as <-. apply emits_refl.
  - apply bind_Ok in H as (b1 & H1 & H). rewrite bind_cons.
    eapply emits_trans; [by apply Hf | by apply IH].
Qed.

Lemma for_each_emits {B} (body : Z -> B -> option (result B)) (proj : B -> Module)
    (P : call -> Prop) (inst : Z -> list (string * string)) (l : list Z) :
  (forall i b b', body i b = Some (Ok b') -> emits P (inst i) (proj b) (proj b')) ->
  forall b b', for_each body l b = Some (Ok b') -> emits P (l ≫= inst) (proj b) (proj b').
Proof.
  intros Hf. induction l as [|a l IH]; intros b b' H; simpl in H.
  - injection H as <-. apply emits_refl.
  - destruct (body a b) as [[b1|e]|] eqn:H1; [|discriminate..]. rewrite bind_cons.
    eapply emits_trans; [by apply Hf | by apply IH].
Qed.

Lemma bind_no_instances {A} (l : list A) : l ≫= (fun _ => @nil (string * string)) = [].
Proof. induction l as [|a l IH]; [done|]. by rewrite bind_cons, IH. Qed.

Lemma port_call_not_remove pi c x : port_call pi c x -> not_remove x.
Proof. by destruct x. Qed.

Lemma set_clock_port_emits ps c m it m' :
  set_clock_port ps c m it = Ok m' -> emits not_remove [] m m'.
Proof.
  unfold set_clock_port. intros H. apply bind_Ok in H as (r & _ & H). injection H as <-.
  pose proof (emits_refl not_remove m) as E. emits_from E.
Qed.

Lemma set_clkpol_param_emits ps c m it m' :
  set_clkpol_param ps c m it = Ok m' -> emits not_remove [] m m'.
Proof.
  unfold set_clkpol_param. intros H. pose proof (emits_refl not_remove m) as E.
  destruct (decide (it.1 > 1)).
  - apply bind_Ok in H as (r & _ & H). injection H as <-. emits_from E.
  - injection H as <-. done.
Qed.

(** One pass through the body of the grid loops adds exactly one bram
    cell. *)
Lemma stitch_instance_emits cell bram ps st d a s k s' :
  stitch_instance cell bram ps st d a s k = Ok s' ->
  emits not_remove [(instance_name cell d a k, b_name bram)] s.1 s'.1.
Proof.
  unfold stitch_instance. intros H.
  apply bind_Ok in H as (s1 & H1 & H).
  apply bind_Ok in H as (m2 & H2 & H).
  apply bind_Ok in H as (m3 & H3 & H). injection H as <-. cbn [fst].
  apply (foldM_emits _ st_module not_remove (fun _ => [])) in H1;
    [|intros b p b' Hp; eapply emits_weaken; [apply port_call_not_remove|];
      by apply stitch_port_calls in Hp].
  apply (foldM_emits _ id not_remove (fun _ => [])) in H2;
    [|intros b p b' Hp; by apply set_clock_port_emits in Hp].
  apply (foldM_emits _ id not_remove (fun _ => [])) in H3;
    [|intros b p b' Hp; by apply set_clkpol_param_emits in Hp].
  rewrite bind_no_instances in H1. rewrite bind_no_instances in H2.
  rewrite bind_no_instances in H3. cbn [st_module id] in *.
  change [(instance_name cell d a k, b_name bram)]
    with (instances [addCell (instance_name cell d a k) (b_name bram)] ++ [] ++ [] ++ []).
  eapply emits_trans; [by apply emits_emit|].
  eapply emits_trans; [exact H1|]. eapply emits_trans; [exact H2|exact H3].
Qed.

Lemma stitch_grid_emits fuel cell bram ps st s s' :
  0 <= WIDTH cell -> 0 <= SIZE cell ->
  stitch_grid fuel cell bram ps st s = Some (Ok s') ->
  emits not_remove
    (d ← seqZ 0 (cdiv (WIDTH cell) (b_dbits bram));
     a ← seqZ 0 (cdiv (SIZE cell) (Z.shiftl 1 (b_abits bram)));
     k ← seqZ 0 (dup_count st);
     [(instance_name cell d a k, b_name bram)])
    s.1 s'.1.
Proof.
  intros HW HS H. unfold stitch_grid in H.
  apply for_loop_Ok in H as (nd & Hd & Hdend & H).
  rewrite <- (grid_loop_count _ _ _ HW Hd Hdend).
  revert H. apply for_each_emits. intros d b b' H.
  apply for_loop_Ok in H as (na & Ha & Haend & H).
  rewrite <- (grid_loop_count _ _ _ HS Ha Haend).
  revert H. apply for_each_emits. intros a b0 b0' H.
  injection H as H. revert H. apply foldM_emits.
  intros b1 k b1' H. by apply stitch_instance_emits in H.
Qed.

Lemma resolve_dout_emits m it m' :
  resolve_dout m it = Ok m' -> emits not_remove [] m m'.
Proof.
  unfold resolve_dout. intros H. pose proof (emits_refl not_remove m) as E.
  destruct (decide (it.2.1 = [])).
  - destruct (decide (_ = _)); [|discriminate]. injection H as <-. emits_from E.
  - destruct (decide (_ = _)); [|discriminate]. injection H as <-. emits_from E.
Qed.

(** The calls of a successful [stitch]: the grid and the read-data
    connections, then the removal of the $mem cell. *)
Lemma stitch_calls fuel cell bram st m m' :
  0 <= WIDTH cell -> 0 <= SIZE cell ->
  stitch fuel cell bram st m = Some (Ok m') ->
  exists cs,
    calls m' = calls m ++ cs ++ [remove (name cell)] /\
    Forall not_remove cs /\
    instances cs =
      (d ← seqZ 0 (cdiv (WIDTH cell) (b_dbits bram));
       a ← seqZ 0 (cdiv (SIZE cell) (Z.shiftl 1 (b_abits bram)));
       k ← seqZ 0 (dup_count st);
       [(instance_name cell d a k, b_name bram)]).
Proof.
  intros HW HS H. unfold stitch in H.
  destruct (stitch_grid _ _ _ _ _ _) as [[[m1 cache]|e]|] eqn:Hgrid; [|discriminate..].
  injection H as H. apply bind_Ok in H as (m2 & Hres & H). injection H as <-.
  apply stitch_grid_emits in Hgrid; [|done..]. cbn [fst] in Hgrid.
  apply (foldM_emits _ id not_remove (fun _ => [])) in Hres;
    [|intros b p b' Hp; by apply resolve_dout_emits in Hp].
  rewrite bind_no_instances in Hres. cbn [id] in Hres.
  pose proof (emits_trans _ _ _ _ _ _ Hgrid Hres) as (cs & Hcs & Hall & Hinst).
  rewrite app_nil_r in Hinst.
  exists cs. split; [|done]. cbn [emit calls]. by rewrite Hcs, app_assoc.
Qed.

(** A failed attempt leaves the module as it was. *)
Lemma replace_cell_false fuel cell bram mt m m' :
  replace_cell fuel cell bram mt m = Some (Ok (false, m')) -> m' = m.
Proof.
  unfold replace_cell.
  destruct (assign_ports fuel cell bram) as [[[st|]|e]|]; try discriminate.
  - destruct (stitch fuel cell bram st m) as [[m1|e]|]; discriminate.
  - by intros [= <-].
Qed.

Lemma port_call_grid_call pi c x : port_call pi c x -> grid_call x.
Proof. by destruct x. Qed.

Lemma set_clock_port_grid ps c m it m' :
  set_clock_port ps c m it = Ok m' -> emits grid_call [] m m'.
Proof.
  unfold set_clock_port. intros H. apply bind_Ok in H as (r & _ & H). injection H as <-.
  pose proof (emits_refl grid_call m) as E. emits_from E.
Qed.

Lemma set_clkpol_param_grid ps c m it m' :
  set_clkpol_param ps c m it = Ok m' -> emits grid_call [] m m'.
Proof.
  unfold set_clkpol_param. intros H. pose proof (emits_refl grid_call m) as E.
  destruct (decide (it.1 > 1)).
  - apply bind_Ok in H as (r & _ & H). injection H as <-. emits_from E.
  - injection H as <-. done.
Qed.

(** One pass through the body of the grid loops makes calls of the grid
    only, the first of which adds the bram cell. *)
Lemma stitch_instance_grid cell bram ps st d a s k s' :
  stitch_instance cell bram ps st d a s k = Ok s' ->
  emits grid_call [(instance_name cell d a k, b_name bram)] s.1 s'.1.
Proof.
  unfold stitch_instance. intros H.
  apply bind_Ok in H as (s1 & H1 & H).
  apply bind_Ok in H as (m2 & H2 & H).
  apply bind_Ok in H as (m3 & H3 & H). injection H as <-. cbn [fst].
  apply (foldM_emits _ st_module grid_call (fun _ => [])) in H1;
    [|intros b p b' Hp; eapply emits_weaken; [apply port_call_grid_call|];
      by apply stitch_port_calls in Hp].
  apply (foldM_emits _ id grid_call (fun _ => [])) in H2;
    [|intros b p b' Hp; by apply set_clock_port_grid in Hp].
  apply (foldM_emits _ id grid_call (fun _ => [])) in H3;
    [|intros b p b' Hp; by apply set_clkpol_param_grid in Hp].
  rewrite bind_no_instances in H1. rewrite bind_no_instances in H2.
  rewrite bind_no_instances in H3. cbn [st_module id] in *.
  change [(instance_name cell d a k, b_name bram)]
    with (instances [addCell (instance_name cell d a k) (b_name bram)] ++ [] ++ [] ++ []).
  eapply emits_trans; [by apply emits_emit|].
  eapply emits_trans; [exact H1|]. eapply emits_trans; [exact H2|exact H3].
Qed.

Lemma for_loop_grid {B} fuel cond (body : Z -> B -> option (result B)) (proj : B -> Module) :
  (forall i b b', body i b = Some (Ok b') ->
     exists inst, emits grid_call inst (proj b) (proj b')) ->
  forall i b b', for_loop fuel cond body i b = Some (Ok b') ->
    exists inst, emits grid_call inst (proj b) (proj b').
Proof.
  intros Hbody. induction fuel as [|fuel IH]; intros i b b' H; [discriminate|].
  cbn [for_loop] in H. destruct (cond i).
  - destruct (body i b) as [[b1|e]|] eqn:Hb; [|discriminate..].
    apply Hbody in Hb as (i1 & E1). apply IH in H as (i2 & E2).
    eexists. eapply emits_trans; eauto.
  - injection H as <-. eexists. apply emits_refl.
Qed.

(** The grid loops make calls of the grid only. *)
Lemma stitch_grid_grid fuel cell bram ps st s s' :
  stitch_grid fuel cell bram ps st s = Some (Ok s') ->
  exists inst, emits grid_call inst s.1 s'.1.
Proof.
  unfold stitch_grid. apply for_loop_grid. intros d b b'.
  apply for_loop_grid. intros a b0 b0' H. injection H as H.
  eexists. revert H. apply foldM_emits.
  intros b1 k b1' H. apply stitch_instance_grid in H. exact H.
Qed.

(** The loop over the read-data cache makes one call for every entry, in
    the order of the entries. *)
Lemma resolve_dout_calls cache : forall m m',
  foldM resolve_dout cache m = Ok m' ->
  exists dout, calls m' = calls m ++ dout /\ Forall2 dout_call cache dout.
Proof.
  induction cache as [|it cache IH]; intros m m' H; simpl in H.
  - injection H as <-. exists []. rewrite app_nil_r. split; [done|constructor].
  - apply bind_Ok in H as (m1 & H1 & H). apply IH in H as (dout & Hd & Hall).
    unfold resolve_dout in H1.
    destruct (decide (it.2.1 = [])) as [Hsel|Hsel].
    + destruct (decide (_ = _)); [|discriminate]. injection H1 as <-.
      exists (connect it.1 it.2.2 :: dout). split.
      * rewrite Hd. cbn [emit calls]. by rewrite <- app_assoc.
      * constructor; [|done]. unfold dout_call. by rewrite decide_True.
    + destruct (decide (_ = _)); [|discriminate]. injection H1 as <-.
      eexists (_ :: dout). split.
      * rewrite Hd. cbn [emit calls new_id fst snd]. rewrite <- app_assoc. reflexivity.
      * constructor; [|done]. unfold dout_call. rewrite decide_False by done. eauto.
Qed.

(** When the port assignment succeeds [replace_cell] does not return
    false, and when it fails [replace_cell] returns false with the
    module it was given. *)
Lemma replace_cell_false_iff fuel cell bram mt m m' :
  replace_cell fuel cell bram mt m = Some (Ok (false, m')) <->
  assign_ports fuel cell bram = Some (Ok None) /\ m' = m.
Proof.
  unfold replace_cell. split.
  - destruct (assign_ports fuel cell bram) as [[[st|]|e]|]; try discriminate.
    + destruct (stitch fuel cell bram st m) as [[m1|e]|]; discriminate.
    + by intros [= <-].
  - intros [-> ->]. done.
Qed.

(** C8: if [replace_cell] returns false, it is the port assignment that
    failed, and the module is the one it was given: no call was made on
    it, so nothing was added or connected and the $mem cell is in place.
    If it returns true, the calls made on the module are, in this order:
    the calls of the grid loops, which add the bram cells of all grid
    positions with their ports and address decoders and make no
    connection and no removal; one connection or multiplexer for every
    entry of the read-data cache that the grid loops built, in the order of
    the entries; and last the removal of the $mem cell, the only one. *)
Theorem replace_cell_commit fuel cell bram mt m r m' :
  replace_cell fuel cell bram mt m = Some (Ok (r, m')) ->
  if r then
    exists st m1 cache grid dout,
      assign_ports fuel cell bram = Some (Ok (Some st)) /\
      stitch_grid fuel cell bram (prescan (make_portinfos bram)) st (m, [])
        = Some (Ok (m1, cache)) /\
      calls m1 = calls m ++ grid /\
      calls m' = calls m ++ grid ++ dout ++ [remove (name cell)] /\
      Forall grid_call grid /\
      (0 <= WIDTH cell -> 0 <= SIZE cell ->
       instances grid =
         (grid_d ← seqZ 0 (cdiv (WIDTH cell) (b_dbits bram));
          grid_a ← seqZ 0 (cdiv (SIZE cell) (Z.shiftl 1 (b_abits bram)));
          dupidx_ ← seqZ 0 (dup_count st);
          [(instance_name cell grid_d grid_a dupidx_, b_name bram)])) /\
      Forall2 dout_call cache dout /\
      Forall not_remove (grid ++ dout)
  else
    m' = m /\ assign_ports fuel cell bram = Some (Ok None).
Proof.
  destruct r.
  - unfold replace_cell.
    destruct (assign_ports fuel cell bram) as [[[st|]|e]|]; try discriminate.
    destruct (stitch fuel cell bram st m) as [[m2|e]|] eqn:Hs; try discriminate.
    intros [= <-]. unfold stitch in Hs.
    destruct (stitch_grid _ _ _ _ _ _) as [[[m1 cache]|e]|] eqn:Hgrid; [|discriminate..].
    injection Hs as Hs. apply bind_Ok in Hs as (m3 & Hres & Hs). injection Hs as <-.
    pose proof (stitch_grid_grid _ _ _ _ _ _ _ Hgrid) as (inst & grid & Hcalls & Hall & _).
    cbn [fst] in Hcalls.
    apply resolve_dout_calls in Hres as (dout & Hdout & Hd).
    exists st, m1, cache, grid, dout.
    split; [done|]. split; [done|]. split; [done|]. split; [|split; [|split; [|split]]].
    + cbn [emit calls]. by rewrite Hdout, Hcalls, <- !app_assoc.
    + done.
    + intros HW HS. apply stitch_grid_emits in Hgrid as (cs & Hcs & _ & Hinst); [|done..].
      cbn [fst] in Hcs. rewrite Hcalls in Hcs. apply app_inv_head in Hcs. by subst cs.
    + done.
    + apply Forall_app. split.
      * eapply Forall_impl; [exact Hall|]. intros x Hx. by destruct x.
      * clear Hdout Hgrid. induction Hd as [|it x cache' dout' Hx Hd IH]; [constructor|].
        constructor; [|exact IH]. unfold dout_call in Hx.
        destruct (decide (it.2.1 = [])); [by subst x|]. by destruct Hx as [id ->].
  - intros H. apply replace_cell_false_iff in H as [? ?]. done.
Qed.

Lemma bind_length_const {A B} (f : A -> list B) (c : nat) (l : list A) :
  (forall x, List.length (f x) = c) -> List.length (l ≫= f) = (List.length l * c)%nat.
Proof.
  intros Hf. induction l as [|x l IH]; [done|].
  rewrite bind_cons, length_app, IH, Hf. simpl. lia.
Qed.

Lemma assign_ports_dup_count fuel cell bram st :
  assign_ports fuel cell bram = Some (Ok (Some st)) -> 1 <= dup_count st.
Proof.
  unfold assign_ports. intros H.
  destruct (write_phase cell bram) as [[st1|]|e] eqn:Hw; [|discriminate..].
  apply (read_phase_success cell bram st1 fuel [] st1) in H as (grown & st_r & Hrs & Hround);
    [|constructor].
  apply write_phase_locals in Hw as (Hc1 & Ht1 & Hd1).
  apply round_start_locals in Hrs as (_ & Hd & _); [|done..].
  apply read_ports_dup_count in Hround. lia.
Qed.

(** C3: a successful replacement of a memory ([WIDTH], [SIZE] not
    negative) adds one bram cell for every grid position
    [(grid_d, grid_a, dupidx)] below [ceil(WIDTH/dbits)],
    [ceil(SIZE/(1<<abits))] and [dup_count], in that order, and so
    [ceil(WIDTH/dbits) * ceil(SIZE/(1<<abits)) * dup_count] cells in all. *)
Theorem grid_instances fuel cell bram mt m m' :
  0 <= WIDTH cell -> 0 <= SIZE cell ->
  replace_cell fuel cell bram mt m = Some (Ok (true, m')) ->
  exists st cs,
    assign_ports fuel cell bram = Some (Ok (Some st)) /\
    calls m' = calls m ++ cs /\
    instances cs =
      (grid_d ← seqZ 0 (cdiv (WIDTH cell) (b_dbits bram));
       grid_a ← seqZ 0 (cdiv (SIZE cell) (Z.shiftl 1 (b_abits bram)));
       dupidx_ ← seqZ 0 (dup_count st);
       [(instance_name cell grid_d grid_a dupidx_, b_name bram)]) /\
    Z.of_nat (List.length (instances cs)) =
      cdiv (WIDTH cell) (b_dbits bram) * cdiv (SIZE cell) (Z.shiftl 1 (b_abits bram))
        * dup_count st.
Proof.
  intros HW HS. unfold replace_cell.
  destruct (assign_ports fuel cell bram) as [[[st|]|e]|] eqn:Hassign; try discriminate.
  destruct (stitch fuel cell bram st m) as [[m1|e]|] eqn:Hs; try discriminate.
  intros [= <-].
  pose proof Hs as Hs'. unfold stitch in Hs'.
  destruct (stitch_grid _ _ _ _ _ _) as [[[m2 cache]|e]|] eqn:Hgrid; [|discriminate..].
  clear Hs'.
  apply stitch_calls in Hs as (cs & Hcs & Hall & Hinst); [|done..].
  exists st, (cs ++ [remove (name cell)]).
  assert (instances (cs ++ [remove (name cell)]) = instances cs) as Hrm.
  { unfold instances. rewrite omap_app. simpl. by rewrite app_nil_r. }
  split; [done|]. split; [done|]. rewrite Hrm. split; [done|].
  rewrite Hinst.
  apply assign_ports_dup_count in Hassign.
  (* the bounds the loops actually ran to *)
  unfold stitch_grid in Hgrid.
  apply for_loop_Ok in Hgrid as (nd & Hd & Hdend & Hrun).
  pose proof (grid_loop_count _ _ _ HW Hd Hdend) as Hnd. rewrite <- Hnd.
  destruct nd as [|nd]; [simpl; lia|].
  rewrite Nat2Z.inj_succ, (seqZ_cons 0 (Z.succ (Z.of_nat nd))) in Hrun by lia.
  cbn [for_each] in Hrun.
  match type of Hrun with
  | context [for_loop ?f ?c ?b 0 (m, [])] =>
      destruct (for_loop f c b 0 (m, [])) as [[b1|e]|] eqn:Hinner; [|discriminate..]
  end.
  apply for_loop_Ok in Hinner as (na & Ha & Haend & _).
  pose proof (grid_loop_count _ _ _ HS Ha Haend) as Hna. rewrite <- Hna.
  rewrite (bind_length_const _ (na * Z.to_nat (dup_count st))%nat).
  - rewrite length_seqZ. lia.
  - intros d. rewrite (bind_length_const _ (Z.to_nat (dup_count st))).
    + rewrite length_seqZ. lia.
    + intros a. rewrite (bind_length_const _ 1%nat); [|done].
      rewrite length_seqZ. lia.
Qed.

Lemma grid_loop_bound (w d : Z) :
  0 < d -> 0 <= w ->
  0 <= cdiv w d /\
  Forall (fun j => bool_decide (j * d < w) = true) (seqZ 0 (cdiv w d)) /\
  bool_decide ((0 + cdiv w d) * d < w) = false.
Proof.
  intros Hd Hw. unfold cdiv.
  pose proof (Z.div_mod (- w) d ltac:(lia)) as Hdm.
  pose proof (Z.mod_pos_bound (- w) d Hd) as Hm.
  set (q := (- w) `div` d) in *.
  split; [nia|]. split.
  - rewrite Forall_forall. intros j Hj. apply elem_of_seqZ in Hj.
    apply bool_decide_eq_true_2. nia.
  - apply bool_decide_eq_false_2. nia.
Qed.

(** With a bram of positive width and depth the grid loops end: fuel
    beyond both grid dimensions is enough. *)
Lemma stitch_grid_terminates fuel cell bram ps st s :
  0 < b_dbits bram -> 0 <= b_abits bram -> 0 <= WIDTH cell -> 0 <= SIZE cell ->
  cdiv (WIDTH cell) (b_dbits bram) < Z.of_nat fuel ->
  cdiv (SIZE cell) (Z.shiftl 1 (b_abits bram)) < Z.of_nat fuel ->
  exists r, stitch_grid fuel cell bram ps st s = Some r.
Proof.
  intros Hd Ha HW HS Hf1 Hf2. unfold stitch_grid.
  assert (0 < Z.shiftl 1 (b_abits bram)) as HP.
  { rewrite Z.shiftl_1_l. by apply Z.pow_pos_nonneg. }
  destruct (grid_loop_bound _ _ Hd HW) as (Hn1 & Hall1 & Hend1).
  destruct (grid_loop_bound _ _ HP HS) as (Hn2 & Hall2 & Hend2).
  apply (for_loop_enough _ _ (Z.to_nat (cdiv (WIDTH cell) (b_dbits bram))));
    rewrite ?Z2Nat.id by done; [done | done | lia |].
  intros d s0.
  apply (for_loop_enough _ _ (Z.to_nat (cdiv (SIZE cell) (Z.shiftl 1 (b_abits bram)))));
    rewrite ?Z2Nat.id by done; [done | done | lia |].
  intros a s1. eauto.
Qed.

(** [replace_cell] returns, for a bram of positive width and depth and
    fuel beyond the number of read ports and both grid dimensions. *)
Lemma replace_cell_terminates fuel cell bram mt m :
  0 < b_dbits bram -> 0 <= b_abits bram -> 0 <= WIDTH cell -> 0 <= SIZE cell ->
  (Z.to_nat (RD_PORTS cell) < fuel)%nat ->
  cdiv (WIDTH cell) (b_dbits bram) < Z.of_nat fuel ->
  cdiv (SIZE cell) (Z.shiftl 1 (b_abits bram)) < Z.of_nat fuel ->
  exists r, replace_cell fuel cell bram mt m = Some r.
Proof.
  intros Hd Ha HW HS Hf0 Hf1 Hf2. unfold replace_cell.
  destruct (assign_ports_total cell bram) as (r & Hr).
  rewrite (Hr fuel Hf0). destruct r as [[st|]|e]; [|eauto..].
  unfold stitch.
  destruct (stitch_grid_terminates fuel cell bram (prescan (make_portinfos bram)) st (m, []))
    as (r & Hgrid); [done..|].
  rewrite Hgrid. destruct r as [[m1 cache]|e]; [|eauto].
  destruct (foldM resolve_dout cache m1 ≫= _); eauto.
Qed.


(** ** Match rules (C2, C4) *)

Lemma cell_properties_lookup cell :
  prop (cell_properties cell) "words" = SIZE cell /\
  prop (cell_properties cell) "dbits" = WIDTH cell.
Proof.
  unfold cell_properties, prop. split; by simplify_map_eq.
Qed.

(** C2 as stated fails: for the 5x3 memory and the 4x4 bram the waste is
    13, not 15. *)
Lemma waste_5x3_is_not_15 :
  wasted (cell_properties ex_mem_5x3) ex_bram_1w1r <> Ok (3, 1, 15).
Proof. vm_compute. discriminate. Qed.

(** C2, as the code has it: for a memory with [words = 5] and [width = 3]
    and a bram with [abits = 2] and [dbits = 4], [awaste = 3], [dwaste = 1]
    and [waste = 3*4 + 1*4 - 3*1 = 13]; a rule [max waste 0] for that bram
    is rejected, and [handle_cell] logs just that. *)
Theorem waste_5x3 cell bram :
  SIZE cell = 5 -> WIDTH cell = 3 -> b_abits bram = 2 -> b_dbits bram = 4 ->
  wasted (cell_properties cell) bram = Ok (3, 1, 13) /\
  (forall mt, min_limits mt = [] -> max_limits mt = [("waste", 0)] ->
     check_rule (set_wasted (cell_properties cell) (3, 1, 13)) mt
       = Ok (RejectedMax ("waste", 0))) /\
  (forall fuel rules mt m,
     matches rules = [mt] -> brams rules !! m_name mt = Some bram ->
     min_limits mt = [] -> max_limits mt = [("waste", 0)] ->
     handle_cell fuel cell rules m =
       Some (Ok (m, [LogProcessing (name cell);
                     LogProperties (map_to_list (cell_properties cell));
                     LogWasted (m_name mt) 3 1 13;
                     LogRejectedMax 0 (m_name mt) "waste" 0;
                     LogNoAcceptable]))).
Proof.
  intros HS HW Ha Hd.
  assert (wasted (cell_properties cell) bram = Ok (3, 1, 13)) as Hwaste.
  { unfold wasted. destruct (cell_properties_lookup cell) as [-> ->].
    rewrite HS, HW, Ha, Hd. reflexivity. }
  assert (forall mt, min_limits mt = [] -> max_limits mt = [("waste", 0)] ->
            check_rule (set_wasted (cell_properties cell) (3, 1, 13)) mt
              = Ok (RejectedMax ("waste", 0))) as Hrule.
  { intros mt Hmin Hmax. unfold check_rule. rewrite Hmin, Hmax.
    cbn [check_limits mbind result_bind fst snd].
    unfold set_wasted. cbn [fst snd]. rewrite lookup_insert_eq. reflexivity. }
  split; [done|]. split; [done|].
  intros fuel rules mt m Hm Hb Hmin Hmax.
  unfold handle_cell. rewrite Hm. cbn [match_rules]. rewrite Hb.
  destruct (decide (m_name mt ∈ (∅ : gset string))) as [Hin|_]; [set_solver|].
  rewrite Hwaste. rewrite (Hrule mt Hmin Hmax). reflexivity.
Qed.


(** How a loop over the limits of a rule ends. *)
Lemma check_limits_None cmp props bram l :
  check_limits cmp props bram l = Ok None <-> Forall (limit_met cmp props) l.
Proof.
  induction l as [|it l IH]; simpl.
  - split; [constructor|done].
  - destruct (props !! it.1) as [v|] eqn:Hv.
    + destruct (cmp v it.2) eqn:Hc.
      * rewrite IH. split.
        -- intros H. constructor; [|done]. exists v. done.
        -- intros H. by inversion H.
      * split; [discriminate|]. intros H. inversion H as [|? ? (v' & Hv' & Hc') _]; subst.
        congruence.
    + split; [discriminate|]. intros H. inversion H as [|? ? (v' & Hv' & Hc') _]; subst.
      congruence.
Qed.

Lemma check_limits_Error cmp props bram l e :
  check_limits cmp props bram l = Error e <->
  exists pre it post,
    l = pre ++ it :: post /\ Forall (limit_met cmp props) pre /\
    props !! it.1 = None /\ e = UnknownProperty it.1 bram.
Proof.
  induction l as [|it l IH]; simpl.
  - split; [discriminate|]. intros (pre & it & post & H & _). by destruct pre.
  - destruct (props !! it.1) as [v|] eqn:Hv.
    + destruct (cmp v it.2) eqn:Hc.
      * rewrite IH. split.
        -- intros (pre & it' & post & -> & Hpre & Hnone & ->).
           exists (it :: pre), it', post. repeat split; try done.
           constructor; [|done]. by exists v.
        -- intros (pre & it' & post & Hl & Hpre & Hnone & ->).
           destruct pre as [|it0 pre]; simplify_eq/=.
           inversion Hpre; subst. exists pre, it', post. done.
      * split; [discriminate|].
        intros (pre & it' & post & Hl & Hpre & Hnone & ->).
        destruct pre as [|it0 pre]; simplify_eq/=.
        inversion Hpre as [|? ? (v' & Hv' & Hc') _]; subst. congruence.
    + split.
      * intros [= <-]. exists [], it, l. repeat split; done.
      * intros (pre & it' & post & Hl & Hpre & Hnone & ->).
        destruct pre as [|it0 pre]; simplify_eq/=; [done|].
        inversion Hpre as [|? ? (v' & Hv' & Hc') _]; subst. congruence.
Qed.

(** The properties a rule can refer to. *)
Lemma match_properties_dom cell w k :
  is_Some (set_wasted (cell_properties cell) w !! k) <->
  k ∈ ["words"; "abits"; "dbits"; "wports"; "rports"; "bits"; "ports";
       "awaste"; "dwaste"; "waste"].
Proof.
  rewrite <- elem_of_dom. unfold set_wasted, cell_properties.
  rewrite !dom_insert_L, dom_empty_L. rewrite !elem_of_union, !elem_of_singleton.
  rewrite !elem_of_cons, elem_of_nil, elem_of_empty. tauto.
Qed.

(** C4 as stated fails: the rule names the property "bogus", which does
    not exist, and yet it is not a fatal error: its minimum on "words" is
    looked at first and rejects the rule. *)
Lemma unknown_property_not_reached :
  set_wasted (cell_properties ex_mem_5x3) (3, 1, 13) !! "bogus" = None /\
  ("bogus", 0) ∈ max_limits ex_rule_bogus /\
  check_rule (set_wasted (cell_properties ex_mem_5x3) (3, 1, 13)) ex_rule_bogus
    = Ok (RejectedMin ("words", 100)) /\
  exists log, handle_cell 1 ex_mem_5x3 (ex_rules [ex_rule_bogus]) ex_module
                = Some (Ok (ex_module, log)).
Proof.
  split; [reflexivity|]. split; [by left|]. split; [reflexivity|].
  eexists. vm_compute. reflexivity.
Qed.

(** C4, as the code has it.  A rule is accepted if and only if every
    minimum and every maximum names a known property and is met; so a rule
    without limits is always accepted.  The limits are looked at in
    order, [min_limits] before [max_limits], and the first one that is not
    met ends the look: the rule is a fatal error exactly when that limit
    names an unknown property (and rejected when it names a known one).
    The known properties are the ten derived ones. *)
Theorem match_rule_verdict props mt :
  (check_rule props mt = Ok Accepted <->
     (forall k lim, (k, lim) ∈ min_limits mt ->
        exists v, props !! k = Some v /\ lim <= v) /\
     (forall k lim, (k, lim) ∈ max_limits mt ->
        exists v, props !! k = Some v /\ v <= lim)) /\
  (min_limits mt = [] -> max_limits mt = [] -> check_rule props mt = Ok Accepted) /\
  (forall e, check_rule props mt = Error e <->
     exists pre it post,
       props !! it.1 = None /\ e = UnknownProperty it.1 (m_name mt) /\
       ((min_limits mt = pre ++ it :: post /\ Forall (limit_met Z.geb props) pre) \/
        (max_limits mt = pre ++ it :: post /\ Forall (limit_met Z.leb props) pre /\
         Forall (limit_met Z.geb props) (min_limits mt)))) /\
  (forall cell w k,
     is_Some (set_wasted (cell_properties cell) w !! k) <->
     k ∈ ["words"; "abits"; "dbits"; "wports"; "rports"; "bits"; "ports";
          "awaste"; "dwaste"; "waste"]).
Proof.
  assert (check_rule props mt = Ok Accepted <->
          Forall (limit_met Z.geb props) (min_limits mt) /\
          Forall (limit_met Z.leb props) (max_limits mt)) as Hacc.
  { unfold check_rule. rewrite <- !(check_limits_None _ _ (m_name mt)).
    destruct (check_limits Z.geb props (m_name mt) (min_limits mt)) as [[it|]|e];
      cbn [mbind result_bind].
    - split; [discriminate|]. intros [? _]. discriminate.
    - destruct (check_limits Z.leb props (m_name mt) (max_limits mt)) as [[it|]|e];
        cbn [mbind result_bind].
      + split; [discriminate|]. intros [_ ?]. discriminate.
      + done.
      + split; [discriminate|]. intros [_ ?]. discriminate.
    - split; [discriminate|]. intros [? _]. discriminate. }
  split; [|split; [|split]].
  - rewrite Hacc, !Forall_forall. split.
    + intros [Hmin Hmax]. split; intros k lim Hin.
      * destruct (Hmin _ Hin) as (v & Hv & Hc). exists v. split; [done|].
        simpl in Hc. lia.
      * destruct (Hmax _ Hin) as (v & Hv & Hc). exists v. split; [done|].
        simpl in Hc. lia.
    + intros [Hmin Hmax]. split; intros [k lim] Hin.
      * destruct (Hmin _ _ Hin) as (v & Hv & Hc). exists v. split; [done|]. simpl. lia.
      * destruct (Hmax _ _ Hin) as (v & Hv & Hc). exists v. split; [done|]. simpl. lia.
  - intros Hmin Hmax. apply Hacc. rewrite Hmin, Hmax. split; constructor.
  - intros e. unfold check_rule.
    destruct (check_limits Z.geb props (m_name mt) (min_limits mt)) as [[it|]|e0] eqn:Hmin;
      cbn [mbind result_bind].
    + split; [discriminate|].
      intros (pre & it' & post & Hnone & -> & [[Hl Hpre]|(_ & _ & Hall)]).
      * assert (check_limits Z.geb props (m_name mt) (min_limits mt)
                = Error (UnknownProperty it'.1 (m_name mt))) as Herr.
        { apply check_limits_Error. eauto 10. }
        congruence.
      * apply (check_limits_None _ _ (m_name mt)) in Hall. rewrite Hall in Hmin. discriminate.
    + apply check_limits_None in Hmin.
      destruct (check_limits Z.leb props (m_name mt) (max_limits mt)) as [[it|]|e0] eqn:Hmax;
        cbn [mbind result_bind].
      * split; [discriminate|].
        intros (pre & it' & post & Hnone & -> & [[Hl Hpre]|(Hl & Hpre & _)]).
        -- rewrite Hl in Hmin. apply Forall_app in Hmin as [_ Hmin].
           inversion Hmin as [|? ? (v & Hv & _) _]; subst. congruence.
        -- assert (check_limits Z.leb props (m_name mt) (max_limits mt)
                   = Error (UnknownProperty it'.1 (m_name mt))) as Herr.
           { apply check_limits_Error. eauto 10. }
           congruence.
      * split; [discriminate|].
        intros (pre & it' & post & Hnone & -> & [[Hl Hpre]|(Hl & Hpre & _)]).
        -- rewrite Hl in Hmin. apply Forall_app in Hmin as [_ Hmin].
           inversion Hmin as [|? ? (v & Hv & _) _]; subst. congruence.
        -- apply check_limits_None in Hmax. rewrite Hl in Hmax.
           apply Forall_app in Hmax as [_ Hmax].
           inversion Hmax as [|? ? (v & Hv & _) _]; subst. congruence.
      * split.
        -- intros [= ->]. apply check_limits_Error in Hmax
             as (pre & it & post & Hl & Hpre & Hnone & ->).
           exists pre, it, post. split; [done|]. split; [done|]. right. done.
        -- intros (pre & it' & post & Hnone & -> & [[Hl Hpre]|(Hl & Hpre & _)]).
           ++ rewrite Hl in Hmin. apply Forall_app in Hmin as [_ Hmin].
              inversion Hmin as [|? ? (v & Hv & _) _]; subst. congruence.
           ++ assert (check_limits Z.leb props (m_name mt) (max_limits mt)
                      = Error (UnknownProperty it'.1 (m_name mt))) as Herr.
              { apply check_limits_Error. eauto 10. }
              congruence.
    + split.
      * intros [= ->]. apply check_limits_Error in Hmin
          as (pre & it & post & Hl & Hpre & Hnone & ->).
        exists pre, it, post. split; [done|]. split; [done|]. left. done.
      * intros (pre & it' & post & Hnone & -> & [[Hl Hpre]|(_ & _ & Hall)]).
        -- assert (check_limits Z.geb props (m_name mt) (min_limits mt)
                   = Error (UnknownProperty it'.1 (m_name mt))) as Herr.
           { apply check_limits_Error. eauto 10. }
           congruence.
        -- apply (check_limits_None _ _ (m_name mt)) in Hall. rewrite Hall in Hmin. discriminate.
  - apply match_properties_dom.
Qed.


(** ** The walk over the rules (C9) *)

Lemma wasted_set_wasted p w bram : wasted (set_wasted p w) bram = wasted p bram.
Proof.
  unfold wasted, set_wasted, prop. by rewrite !lookup_insert_ne by done.
Qed.

Lemma set_wasted_twice (p : gmap string Z) w w' :
  set_wasted (set_wasted p w) w' = set_wasted p w'.
Proof.
  unfold set_wasted. apply map_eq. intros k.
  destruct (decide (k = "waste")) as [->|H1]; [by rewrite !lookup_insert_eq|].
  rewrite !(lookup_insert_ne _ "waste") by done.
  destruct (decide (k = "dwaste")) as [->|H2]; [by rewrite !lookup_insert_eq|].
  rewrite !(lookup_insert_ne _ "dwaste") by done.
  destruct (decide (k = "awaste")) as [->|H3]; [by rewrite !lookup_insert_eq|].
  rewrite !(lookup_insert_ne _ "awaste") by done.
  rewrite !(lookup_insert_ne _ "waste") by done.
  rewrite !(lookup_insert_ne _ "dwaste") by done.
  by rewrite !(lookup_insert_ne _ "awaste") by done.
Qed.

(** [match_properties] while the rules are walked: the properties of the
    cell, with the waste of the last bram looked at. *)
Lemma props_of_cell cell p w bram :
  (p = cell_properties cell \/ exists w0, p = set_wasted (cell_properties cell) w0) ->
  wasted p bram = wasted (cell_properties cell) bram /\
  set_wasted p w = set_wasted (cell_properties cell) w.
Proof.
  intros [->|[w0 ->]]; [done|]. by rewrite wasted_set_wasted, set_wasted_twice.
Qed.

Lemma elem_of_attempts log i n : (i, n) ∈ attempts log <-> LogAccepted i n ∈ log.
Proof.
  unfold attempts. rewrite list_elem_of_omap. split.
  - intros (e & He & Hm). destruct e; try discriminate. by injection Hm as -> ->.
  - intros H. exists (LogAccepted i n). done.
Qed.

Lemma attempts_app l1 l2 : attempts (l1 ++ l2) = attempts l1 ++ attempts l2.
Proof. unfold attempts. apply omap_app. Qed.

Lemma last_app_nonempty {A} (l1 l2 : list A) x : last l2 = Some x -> last (l1 ++ l2) = Some x.
Proof.
  intros H. destruct l2 as [|y l2]; [discriminate|].
  by rewrite last_app, H.
Qed.

(** Events that are no attempt, put before a walk that starts later. *)
Lemma search_trace_skip fuel cell rules m failed from from' pre ev m' :
  attempts pre = [] -> LogNoAcceptable ∉ pre -> from <= from' ->
  search_trace fuel cell rules m failed from' ev m' ->
  search_trace fuel cell rules m failed from (pre ++ ev) m'.
Proof.
  intros Hpre Hno Hle (Hs & Hf & Hn & Hv & Hout). unfold search_trace.
  rewrite attempts_app, Hpre. simpl.
  split; [done|]. split; [|split; [done|split; [done|]]].
  - eapply Forall_impl; [exact Hf|]. simpl. intros a [? ?]. split; [lia|done].
  - destruct Hout as [(-> & Hl & Hall)|(i & mt & bram & Hl & Hm & Hb & Hr & Hno' & Hall)].
    + left. split; [done|]. split; [by apply last_app_nonempty|].
      eapply Forall_impl; [exact Hall|]. simpl. intros a Ha. apply elem_of_app. by right.
    + right. exists i, mt, bram. split; [by apply last_app_nonempty|].
      repeat (split; [done|]). split.
      * rewrite elem_of_app. intros [?|?]; done.
      * eapply Forall_impl; [exact Hall|]. simpl. intros a [Ha|Ha]; [by left|].
        right. apply elem_of_app. by right.
Qed.

(** A failed attempt of rule [i], put before the walk over the later
    rules. *)
Lemma search_trace_failed fuel cell rules m failed i mt pre ev m' :
  0 <= i -> matches rules !! Z.to_nat i = Some mt ->
  rule_verdict cell rules mt = Ok Accepted ->
  m_name mt ∉ failed ->
  attempts pre = [] -> LogNoAcceptable ∉ pre ->
  search_trace fuel cell rules m ({[m_name mt]} ∪ failed) (i + 1) ev m' ->
  search_trace fuel cell rules m failed i
    (pre ++ [LogAccepted i (m_name mt); LogMappingFailed (m_name mt)] ++ ev) m'.
Proof.
  intros Hi Hm Hverdict Hnf Hpre Hno (Hs & Hf & Hn & Hv & Hout). unfold search_trace.
  rewrite !attempts_app, Hpre. cbn [attempts omap app fmap list_fmap].
  change (omap _ ev) with (attempts ev). cbn [fst snd].
  rewrite Forall_forall in Hf.
  split; [|split; [|split; [|split]]].
  - constructor; [done|]. rewrite Forall_forall. intros j Hj.
    apply list_elem_of_fmap in Hj as (a & -> & Ha). destruct (Hf a Ha). simpl. lia.
  - constructor; [split; [simpl; lia|done]|]. rewrite Forall_forall. intros a Ha.
    destruct (Hf a Ha) as [? Hna]. split; [lia|].
    intros Hin. apply Hna, elem_of_union. by right.
  - constructor; [|done]. intros Hin.
    apply list_elem_of_fmap in Hin as (a & Heq & Ha). destruct (Hf a Ha) as [_ Hna].
    simpl in Heq. rewrite <- Heq in Hna.
    apply Hna, elem_of_union. left. by apply elem_of_singleton.
  - constructor; [|done]. exists mt. done.
  - assert (forall x, x ∈ ev ->
              x ∈ pre ++ [LogAccepted i (m_name mt); LogMappingFailed (m_name mt)] ++ ev)
      as Hev.
    { intros x Hx. rewrite !elem_of_app. by do 2 right. }
    assert (LogMappingFailed (m_name mt)
              ∈ pre ++ [LogAccepted i (m_name mt); LogMappingFailed (m_name mt)] ++ ev)
      as Hfailed.
    { rewrite !elem_of_app. right. left. right. by left. }
    destruct Hout as [(-> & Hl & Hall)|(j & mt' & bram & Hl & Hm' & Hb & Hr & Hno' & Hall)].
    + left. split; [done|].
      split; [by apply last_app_nonempty, (last_app_nonempty [_; _])|].
      constructor; [done|]. eapply Forall_impl; [exact Hall|]. simpl. auto.
    + right. exists j, mt', bram.
      split; [by apply last_app_nonempty, (last_app_nonempty [_; _])|].
      repeat (split; [done|]). split.
      * rewrite elem_of_app, !elem_of_cons.
        intros [?|[?|[?|?]]]; done.
      * constructor; [by right|]. eapply Forall_impl; [exact Hall|]. simpl.
        intros a [?|?]; auto.
Qed.

Lemma rule_verdict_Accepted cell rules mt bram p w :
  (p = cell_properties cell \/ exists w0, p = set_wasted (cell_properties cell) w0) ->
  brams rules !! m_name mt = Some bram ->
  wasted p bram = Ok w ->
  check_rule (set_wasted p w) mt = rule_verdict cell rules mt.
Proof.
  intros Hp Hb Hw. unfold rule_verdict. rewrite Hb.
  destruct (props_of_cell cell p w bram Hp) as [H1 H2].
  rewrite <- H1, Hw. cbn [mbind result_bind]. by rewrite H2.
Qed.

(** The walk over the rules: what it logs and what it leaves. *)
Lemma match_rules_trace fuel cell rules : forall pending done_ p failed m log m' log',
  matches rules = done_ ++ pending ->
  (p = cell_properties cell \/ exists w0, p = set_wasted (cell_properties cell) w0) ->
  match_rules fuel cell rules pending (Z.of_nat (List.length done_)) p failed m log
    = Some (Ok (m', log')) ->
  exists ev, log' = log ++ ev /\
    search_trace fuel cell rules m failed (Z.of_nat (List.length done_)) ev m'.
Proof.
  induction pending as [|mt pending IH]; intros done_ p failed m log m' log' Hm Hp H.
  - cbn [match_rules] in H. injection H as <- <-. exists [LogNoAcceptable].
    split; [done|]. unfold search_trace. cbn [attempts omap fmap list_fmap].
    split; [constructor|]. split; [constructor|]. split; [constructor|].
    split; [constructor|]. left. split; [done|]. split; [done|]. constructor.
  - cbn [match_rules] in H.
    assert (matches rules = (done_ ++ [mt]) ++ pending) as Hm' by (by rewrite <- app_assoc).
    assert (Z.of_nat (List.length done_) + 1 = Z.of_nat (List.length (done_ ++ [mt]))) as Hi.
    { rewrite length_app. simpl. lia. }
    assert (matches rules !! Z.to_nat (Z.of_nat (List.length done_)) = Some mt) as Hmt.
    { rewrite Nat2Z.id, Hm. by apply list_lookup_middle. }
    rewrite Hi in H.
    destruct (brams rules !! m_name mt) as [bram|] eqn:Hb; [|discriminate].
    destruct (decide (m_name mt ∈ failed)) as [Hin|Hnin].
    { apply IH in H as (ev & -> & Htrace); [|done..]. exists ev. split; [done|].
      apply (search_trace_skip _ _ _ _ _ (Z.of_nat (List.length done_)) _ [] ev) in Htrace;
        [done | done | by apply not_elem_of_nil | lia]. }
    destruct (wasted p bram) as [w|e] eqn:Hw; [|discriminate].
    cbn zeta in H.
    pose proof (rule_verdict_Accepted cell rules mt bram p w Hp Hb Hw) as Hverdict.
    assert (set_wasted p w = cell_properties cell \/
            exists w0, set_wasted p w = set_wasted (cell_properties cell) w0) as Hp'.
    { right. exists w. by apply props_of_cell. }
    destruct (check_rule (set_wasted p w) mt) as [[|it|it]|e] eqn:Hrule; [| | |discriminate].
    + destruct (replace_cell fuel cell bram mt m) as [[[[|] m1]|e]|] eqn:Hrep;
        [| |discriminate..].
      * injection H as <- <-. exists [LogWasted (m_name mt) w.1.1 w.1.2 w.2;
                                      LogAccepted (Z.of_nat (List.length done_)) (m_name mt)].
        split; [by rewrite <- app_assoc|]. unfold search_trace.
        cbn [attempts omap fmap list_fmap fst snd].
        split; [repeat constructor|].
        split; [constructor; [split; [simpl; lia|done]|constructor]|].
        split; [constructor; [by apply not_elem_of_nil|constructor]|].
        split; [constructor; [|constructor]; exists mt; simpl; repeat split; try done; lia|].
        right. exists (Z.of_nat (List.length done_)), mt, bram.
        split; [done|]. repeat (split; [done|]). split.
        -- rewrite !elem_of_cons, elem_of_nil. intros [?|[?|?]]; done.
        -- constructor; [by left|constructor].
      * apply replace_cell_false in Hrep as ->.
        apply IH in H as (ev & -> & Htrace); [|done..].
        rewrite <- Hi in Htrace.
        eexists. split; [rewrite <- !app_assoc; reflexivity|].
        apply (search_trace_failed _ _ _ _ _ _ mt [LogWasted (m_name mt) w.1.1 w.1.2 w.2]);
          [lia | done | congruence | done | done | | done].
        rewrite elem_of_cons, elem_of_nil. intros [?|?]; done.
    + apply IH in H as (ev & -> & Htrace); [|done..].
      eexists. split; [rewrite <- !app_assoc; reflexivity|].
      apply (search_trace_skip _ _ _ _ _ (Z.of_nat (List.length done_)) _
               [LogWasted (m_name mt) w.1.1 w.1.2 w.2;
                LogRejectedMin (Z.of_nat (List.length done_)) (m_name mt) it.1 it.2])
        in Htrace; [exact Htrace|done| |lia].
      rewrite !elem_of_cons, elem_of_nil. intros [?|[?|?]]; done.
    + apply IH in H as (ev & -> & Htrace); [|done..].
      eexists. split; [rewrite <- !app_assoc; reflexivity|].
      apply (search_trace_skip _ _ _ _ _ (Z.of_nat (List.length done_)) _
               [LogWasted (m_name mt) w.1.1 w.1.2 w.2;
                LogRejectedMax (Z.of_nat (List.length done_)) (m_name mt) it.1 it.2])
        in Htrace; [exact Htrace|done| |lia].
      rewrite !elem_of_cons, elem_of_nil. intros [?|[?|?]]; done.
Qed.

(** The first rule whose limits are satisfied is attempted. *)
Lemma first_accepted_attempted fuel cell rules : forall pending done_ p failed m log m' log',
  matches rules = done_ ++ pending ->
  (p = cell_properties cell \/ exists w0, p = set_wasted (cell_properties cell) w0) ->
  match_rules fuel cell rules pending (Z.of_nat (List.length done_)) p failed m log
    = Some (Ok (m', log')) ->
  forall k mt,
    pending !! k = Some mt ->
    rule_verdict cell rules mt = Ok Accepted ->
    m_name mt ∉ failed ->
    (forall k' mt', (k' < k)%nat -> pending !! k' = Some mt' ->
       rule_verdict cell rules mt' <> Ok Accepted) ->
    LogAccepted (Z.of_nat (List.length done_ + k)) (m_name mt) ∈ log'.
Proof.
  induction pending as [|mt0 pending IH]; intros done_ p failed m log m' log' Hm Hp H k mt Hk Hacc Hnf Hfirst;
    [by rewrite lookup_nil in Hk|].
  cbn [match_rules] in H.
  assert (matches rules = (done_ ++ [mt0]) ++ pending) as Hm' by (by rewrite <- app_assoc).
  assert (Z.of_nat (List.length done_) + 1 = Z.of_nat (List.length (done_ ++ [mt0]))) as Hi.
  { rewrite length_app. simpl. lia. }
  rewrite Hi in H.
  destruct (brams rules !! m_name mt0) as [bram|] eqn:Hb; [|discriminate].
  assert (forall p0 failed0 log0,
            (p0 = cell_properties cell \/
             exists w0, p0 = set_wasted (cell_properties cell) w0) ->
            failed0 = failed ->
            (k <> 0)%nat ->
            match_rules fuel cell rules pending (Z.of_nat (List.length (done_ ++ [mt0])))
              p0 failed0 m log0 = Some (Ok (m', log')) ->
            LogAccepted (Z.of_nat (List.length done_ + k)) (m_name mt) ∈ log') as Hnext.
  { intros p0 failed0 log0 Hp0 -> Hk0 Hrec. destruct k as [|k]; [done|].
    replace (List.length done_ + S k)%nat with (List.length (done_ ++ [mt0]) + k)%nat
      by (rewrite length_app; simpl; lia).
    eapply IH; eauto. intros k' mt' Hlt Hk'. apply (Hfirst (S k') mt'); [lia|done]. }
  destruct (decide (m_name mt0 ∈ failed)) as [Hin|Hnin].
  { destruct k as [|k]; [injection Hk as ->; done|]. eapply Hnext; eauto. }
  destruct (wasted p bram) as [w|e] eqn:Hw; [|discriminate].
  cbn zeta in H.
  pose proof (rule_verdict_Accepted cell rules mt0 bram p w Hp Hb Hw) as Hverdict.
  assert (set_wasted p w = cell_properties cell \/
          exists w0, set_wasted p w = set_wasted (cell_properties cell) w0) as Hp'.
  { right. exists w. by apply props_of_cell. }
  destruct (check_rule (set_wasted p w) mt0) as [[|it|it]|e] eqn:Hrule; [| | |discriminate].
  - (* rule [mt0] is attempted: it is the first accepted one *)
    destruct k as [|k]; [|exfalso; apply (Hfirst 0%nat mt0); [lia|done|congruence]].
    injection Hk as ->. rewrite Nat.add_0_r.
    destruct (replace_cell fuel cell bram mt m) as [[[[|] m1]|e]|] eqn:Hrep;
      [| |discriminate..].
    + injection H as <- <-. rewrite !elem_of_app. right. by left.
    + apply match_rules_trace in H as (ev & -> & _); [|done..].
      rewrite !elem_of_app. left. right. by left.
  - destruct k as [|k]; [injection Hk as ->; congruence|]. eapply Hnext; eauto.
  - destruct k as [|k]; [injection Hk as ->; congruence|]. eapply Hnext; eauto.
Qed.

Lemma last_app_last {A} (l1 l2 : list A) x y :
  last l2 = Some x -> last (l1 ++ l2) = Some y -> y = x.
Proof.
  intros H2 H. rewrite (last_app_nonempty l1 l2 x H2) in H. by injection H.
Qed.

(** The walk over the rules accounts for every rule: until it ends, a
    rule is skipped because its bram has failed, rejected by its limits,
    or attempted; an attempt that is not the last event of the walk has
    failed; and nothing is attempted after a success. *)
Lemma match_rules_walk fuel cell rules : forall pending done_ p failed m log m' log',
  matches rules = done_ ++ pending ->
  (p = cell_properties cell \/ exists w0, p = set_wasted (cell_properties cell) w0) ->
  match_rules fuel cell rules pending (Z.of_nat (List.length done_)) p failed m log
    = Some (Ok (m', log')) ->
  exists ev, log' = log ++ ev /\
    (exists x, last ev = Some x) /\
    (forall i n, (i, n) ∈ attempts ev ->
       exists mt bram,
         Z.of_nat (List.length done_) <= i /\
         matches rules !! Z.to_nat i = Some mt /\ m_name mt = n /\
         brams rules !! n = Some bram /\
         (replace_cell fuel cell bram mt m = Some (Ok (false, m)) \/
          (replace_cell fuel cell bram mt m = Some (Ok (true, m')) /\
           last ev = Some (LogAccepted i n)))) /\
    (forall k mt, pending !! k = Some mt ->
       (forall i n, last ev = Some (LogAccepted i n) ->
          Z.of_nat (List.length done_ + k) < i) ->
       m_name mt ∈ failed \/
       (exists j, j <= Z.of_nat (List.length done_ + k) /\ (j, m_name mt) ∈ attempts ev) \/
       (exists it, rule_verdict cell rules mt = Ok (RejectedMin it) \/
                   rule_verdict cell rules mt = Ok (RejectedMax it))) /\
    (forall i n j n', last ev = Some (LogAccepted i n) -> (j, n') ∈ attempts ev -> j <= i).
Proof.
  induction pending as [|mt0 pending IH]; intros done_ p failed m log m' log' Hm Hp H.
  - cbn [match_rules] in H. injection H as <- <-. exists [LogNoAcceptable].
    split; [done|]. split; [eauto|]. cbn [attempts omap]. split; [|split].
    + intros i n Hin. by apply elem_of_nil in Hin.
    + intros k mt Hk. by rewrite lookup_nil in Hk.
    + intros i n j n' _ Hin. by apply elem_of_nil in Hin.
  - cbn [match_rules] in H.
    assert (matches rules = (done_ ++ [mt0]) ++ pending) as Hm' by (by rewrite <- app_assoc).
    assert (Z.of_nat (List.length done_) + 1 = Z.of_nat (List.length (done_ ++ [mt0]))) as Hi.
    { rewrite length_app. simpl. lia. }
    assert (matches rules !! Z.to_nat (Z.of_nat (List.length done_)) = Some mt0) as Hmt.
    { rewrite Nat2Z.id, Hm. by apply list_lookup_middle. }
    assert (forall k, (List.length (done_ ++ [mt0]) + k = List.length done_ + S k)%nat) as Hlen.
    { intros k. rewrite length_app. simpl. lia. }
    rewrite Hi in H.
    destruct (brams rules !! m_name mt0) as [bram|] eqn:Hb; [|discriminate].
    destruct (decide (m_name mt0 ∈ failed)) as [Hin|Hnin].
    { apply IH in H as (ev & -> & Hlast & Hatt & Hacc & Hstop); [|done..].
      exists ev. split; [done|]. split; [done|]. split; [|split; [|done]].
      - intros i n Hi'. destruct (Hatt i n Hi') as (mt & bram' & Hle & Hrest).
        exists mt, bram'. split; [lia|done].
      - intros [|k] mt Hk Hbefore.
        + injection Hk as <-. by left.
        + rewrite <- Hlen. apply Hacc; [done|]. intros i n Hl. rewrite Hlen. by eapply Hbefore. }
    destruct (wasted p bram) as [w|e] eqn:Hw; [|discriminate].
    cbn zeta in H.
    pose proof (rule_verdict_Accepted cell rules mt0 bram p w Hp Hb Hw) as Hverdict.
    assert (set_wasted p w = cell_properties cell \/
            exists w0, set_wasted p w = set_wasted (cell_properties cell) w0) as Hp'.
    { right. exists w. by apply props_of_cell. }
    destruct (check_rule (set_wasted p w) mt0) as [[|it|it]|e] eqn:Hrule; [| | |discriminate].
    + destruct (replace_cell fuel cell bram mt0 m) as [[[[|] m1]|e]|] eqn:Hrep;
        [| |discriminate..].
      * injection H as <- <-.
        exists [LogWasted (m_name mt0) w.1.1 w.1.2 w.2;
                LogAccepted (Z.of_nat (List.length done_)) (m_name mt0)].
        split; [by rewrite <- app_assoc|]. split; [eauto|].
        cbn [attempts omap]. split; [|split].
        -- intros i n Hin. apply list_elem_of_singleton in Hin. injection Hin as -> ->.
           exists mt0, bram. split; [lia|]. split; [done|]. split; [done|]. split; [done|].
           right. done.
        -- intros k mt Hk Hbefore. exfalso.
           specialize (Hbefore _ _ eq_refl). lia.
        -- intros i n j n' Hl Hin. apply list_elem_of_singleton in Hin.
           injection Hin as -> ->. simpl in Hl. injection Hl as <- _. lia.
      * apply replace_cell_false in Hrep as Hm1. subst m1.
        apply IH in H as (ev & -> & (x & Hlast) & Hatt & Hacc & Hstop); [|done..].
        exists ([LogWasted (m_name mt0) w.1.1 w.1.2 w.2;
                 LogAccepted (Z.of_nat (List.length done_)) (m_name mt0);
                 LogMappingFailed (m_name mt0)] ++ ev).
        split; [by rewrite <- !app_assoc|].
        split; [exists x; by apply (last_app_nonempty [_; _; _])|].
        rewrite attempts_app. cbn [attempts omap app].
        change (omap _ ev) with (attempts ev).
        split; [|split].
        -- intros i n Hin. apply elem_of_cons in Hin as [Heq|Hin].
           ++ injection Heq as -> ->. exists mt0, bram.
              split; [lia|]. split; [done|]. split; [done|]. split; [done|]. by left.
           ++ destruct (Hatt i n Hin) as (mt & bram' & Hle & Hl & Hn & Hb' & Hr).
              exists mt, bram'. split; [lia|]. split; [done|]. split; [done|].
              split; [done|]. destruct Hr as [Hr|[Hr Hl']]; [by left|]. right.
              split; [done|]. by apply (last_app_nonempty [_; _; _]).
        -- intros [|k] mt Hk Hbefore.
           ++ injection Hk as <-. right. left.
              exists (Z.of_nat (List.length done_)). split; [lia|]. by left.
           ++ rewrite <- Hlen.
              destruct (Hacc k mt Hk) as [Hf|[(j & Hj & Hjin)|Hrej]].
              ** intros i n Hl. rewrite Hlen. eapply Hbefore. by apply (last_app_nonempty [_; _; _]).
              ** apply elem_of_union in Hf as [Hf|Hf]; [|by left].
                 apply elem_of_singleton in Hf. right. left.
                 exists (Z.of_nat (List.length done_)). split; [lia|]. rewrite Hf. by left.
              ** right. left. exists j. split; [done|]. by right.
              ** by do 2 right.
        -- intros i n j n' Hl Hin.
           pose proof (last_app_last [_; _; _] _ _ _ Hlast Hl) as Hx. subst x.
           apply elem_of_cons in Hin as [Heq|Hin].
           ++ injection Heq as -> ->.
              assert ((i, n) ∈ attempts ev) as Hi'.
              { apply elem_of_attempts. apply last_Some in Hlast as (l' & ->).
                apply elem_of_app. right. by left. }
              destruct (Hatt i n Hi') as (_ & _ & Hle & _). lia.
           ++ by eapply Hstop.
    + apply IH in H as (ev & -> & (x & Hlast) & Hatt & Hacc & Hstop); [|done..].
      exists ([LogWasted (m_name mt0) w.1.1 w.1.2 w.2;
               LogRejectedMin (Z.of_nat (List.length done_)) (m_name mt0) it.1 it.2] ++ ev).
      split; [by rewrite <- !app_assoc|].
      split; [exists x; by apply (last_app_nonempty [_; _])|].
      rewrite attempts_app. cbn [attempts omap app]. change (omap _ ev) with (attempts ev).
      split; [|split].
      * intros i n Hin. destruct (Hatt i n Hin) as (mt & bram' & Hle & Hl & Hn & Hb' & Hr).
        exists mt, bram'. split; [lia|]. split; [done|]. split; [done|].
        split; [done|]. destruct Hr as [Hr|[Hr Hl']]; [by left|]. right.
        split; [done|]. by apply (last_app_nonempty [_; _]).
      * intros [|k] mt Hk Hbefore.
        -- injection Hk as <-. do 2 right. exists it. left. by rewrite <- Hverdict.
        -- rewrite <- Hlen. apply Hacc; [done|].
           intros i n Hl. rewrite Hlen. eapply Hbefore. by apply (last_app_nonempty [_; _]).
      * intros i n j n' Hl Hin.
        pose proof (last_app_last [_; _] _ _ _ Hlast Hl) as Hx. subst x. by eapply Hstop.
    + apply IH in H as (ev & -> & (x & Hlast) & Hatt & Hacc & Hstop); [|done..].
      exists ([LogWasted (m_name mt0) w.1.1 w.1.2 w.2;
               LogRejectedMax (Z.of_nat (List.length done_)) (m_name mt0) it.1 it.2] ++ ev).
      split; [by rewrite <- !app_assoc|].
      split; [exists x; by apply (last_app_nonempty [_; _])|].
      rewrite attempts_app. cbn [attempts omap app]. change (omap _ ev) with (attempts ev).
      split; [|split].
      * intros i n Hin. destruct (Hatt i n Hin) as (mt & bram' & Hle & Hl & Hn & Hb' & Hr).
        exists mt, bram'. split; [lia|]. split; [done|]. split; [done|].
        split; [done|]. destruct Hr as [Hr|[Hr Hl']]; [by left|]. right.
        split; [done|]. by apply (last_app_nonempty [_; _]).
      * intros [|k] mt Hk Hbefore.
        -- injection Hk as <-. do 2 right. exists it. right. by rewrite <- Hverdict.
        -- rewrite <- Hlen. apply Hacc; [done|].
           intros i n Hl. rewrite Hlen. eapply Hbefore. by apply (last_app_nonempty [_; _]).
      * intros i n j n' Hl Hin.
        pose proof (last_app_last [_; _] _ _ _ Hlast Hl) as Hx. subst x. by eapply Hstop.
Qed.

(** C9: the rules are tried in the order in which they were declared;
    [replace_cell] is called for a rule only if its limits are satisfied,
    and it is called for the first such rule; no bram is tried twice, so
    the rules that name a bram that already failed are skipped.  The walk
    goes on after a failed attempt and ends with the first successful
    replacement: every rule before the successful one was rejected by its
    limits, or its bram was attempted at that rule or before it, and all
    attempts but the last have failed and left the module as it was.  When
    no rule is left the same holds of every rule and every attempt, the
    module is as it was, and the last word is the notice that no acceptable
    bram was found, not a fatal error. *)
Theorem rule_search fuel cell rules m m' log :
  handle_cell fuel cell rules m = Some (Ok (m', log)) ->
  let rejected := fun mt =>
    exists it, rule_verdict cell rules mt = Ok (RejectedMin it) \/
               rule_verdict cell rules mt = Ok (RejectedMax it) in
  let failed_attempt := fun (i : Z) (n : string) =>
    exists mt bram,
      matches rules !! Z.to_nat i = Some mt /\ m_name mt = n /\
      brams rules !! n = Some bram /\
      replace_cell fuel cell bram mt m = Some (Ok (false, m)) in
  StronglySorted Z.lt (attempts log).*1 /\
  NoDup (attempts log).*2 /\
  (forall i n, (i, n) ∈ attempts log ->
     exists mt, 0 <= i /\ matches rules !! Z.to_nat i = Some mt /\ m_name mt = n /\
                rule_verdict cell rules mt = Ok Accepted) /\
  (forall k mt,
     matches rules !! k = Some mt ->
     rule_verdict cell rules mt = Ok Accepted ->
     (forall k' mt', (k' < k)%nat -> matches rules !! k' = Some mt' ->
        rule_verdict cell rules mt' <> Ok Accepted) ->
     (Z.of_nat k, m_name mt) ∈ attempts log) /\
  ((m' = m /\ last log = Some LogNoAcceptable /\
    (forall i n, (i, n) ∈ attempts log -> LogMappingFailed n ∈ log) /\
    (forall i n, (i, n) ∈ attempts log -> failed_attempt i n) /\
    (forall k mt, matches rules !! k = Some mt ->
       (exists j, j <= Z.of_nat k /\ (j, m_name mt) ∈ attempts log) \/ rejected mt)) \/
   (exists i mt bram,
      last log = Some (LogAccepted i (m_name mt)) /\
      matches rules !! Z.to_nat i = Some mt /\
      brams rules !! m_name mt = Some bram /\
      replace_cell fuel cell bram mt m = Some (Ok (true, m')) /\
      (LogNoAcceptable ∉ log) /\
      (forall j n, (j, n) ∈ attempts log -> j = i \/ LogMappingFailed n ∈ log) /\
      (forall j n, (j, n) ∈ attempts log -> j = i \/ (j < i /\ failed_attempt j n)) /\
      (forall k mt', Z.of_nat k < i -> matches rules !! k = Some mt' ->
         (exists j, j <= Z.of_nat k /\ (j, m_name mt') ∈ attempts log) \/ rejected mt'))).
Proof.
  intros H rejected failed_attempt. unfold handle_cell in H.
  pose proof (first_accepted_attempted fuel cell rules (matches rules) [] _ _ _ _ _ _
                eq_refl (or_introl eq_refl) H) as Hfirst.
  pose proof (match_rules_walk fuel cell rules (matches rules) [] _ _ _ _ _ _
                eq_refl (or_introl eq_refl) H) as (ev' & Hev' & _ & Hatt & Hacc & Hstop).
  apply (match_rules_trace fuel cell rules (matches rules) []) in H
    as (ev & -> & Hs & Hf & Hn & Hv & Hout); [|done|by left].
  apply app_inv_head in Hev'. subst ev'.
  rewrite attempts_app. cbn [attempts omap app] in *. change (omap _ ev) with (attempts ev) in *.
  assert (forall x, last ev = Some x ->
            last (LogProcessing (name cell)
                  :: LogProperties (map_to_list (cell_properties cell)) :: ev) = Some x)
    as Hlast by (intros x Hx; by apply (last_app_nonempty [_; _])).
  assert (forall k mt,
            matches rules !! k = Some mt ->
            (forall i n, last ev = Some (LogAccepted i n) -> Z.of_nat k < i) ->
            (exists j, j <= Z.of_nat k /\ (j, m_name mt) ∈ attempts ev) \/ rejected mt)
    as Hacc'.
  { intros k mt Hk Hbefore. destruct (Hacc k mt Hk) as [Hin|[?|?]]; [|set_solver|by left|by right].
    intros i n Hl. simpl. by eapply Hbefore. }
  split; [done|]. split; [done|]. split; [|split].
  - intros i n Hin. rewrite Forall_forall in Hv. apply (Hv _ Hin).
  - intros k mt Hk Hacc0 Hmin. apply elem_of_attempts.
    specialize (Hfirst k mt Hk Hacc0 (not_elem_of_empty _) Hmin).
    simpl in Hfirst. rewrite !elem_of_cons in Hfirst.
    destruct Hfirst as [?|[?|?]]; done.
  - destruct Hout as [(-> & Hl & Hall)|(i & mt & bram & Hl & Hm & Hb & Hr & Hno & Hall)].
    + left. split; [done|]. split; [by apply Hlast|]. split; [|split].
      * intros i n Hin. rewrite Forall_forall in Hall. do 2 right. apply (Hall _ Hin).
      * intros i n Hin. destruct (Hatt i n Hin) as (mt & bram & _ & Hm & Hn' & Hb & Hr).
        exists mt, bram. split; [done|]. split; [done|]. split; [done|].
        destruct Hr as [Hr|[_ Hl']]; [done|]. rewrite Hl in Hl'. discriminate.
      * intros k mt Hk. apply Hacc'; [done|]. intros i n Hl'. rewrite Hl in Hl'. discriminate.
    + right. exists i, mt, bram. split; [by apply Hlast|].
      repeat (split; [done|]). split; [|split; [|split]].
      * rewrite !elem_of_cons. intros [?|[?|?]]; done.
      * intros j n Hin. rewrite Forall_forall in Hall.
        destruct (Hall _ Hin) as [?|?]; [by left|]. right. by do 2 right.
      * intros j n Hin. destruct (decide (j = i)) as [|Hne]; [by left|]. right.
        pose proof (Hstop _ _ _ _ Hl Hin) as Hle. split; [lia|].
        destruct (Hatt j n Hin) as (mt_j & bram_j & _ & Hm_j & Hn_j & Hb_j & Hr_j).
        exists mt_j, bram_j. split; [done|]. split; [done|]. split; [done|].
        destruct Hr_j as [Hr_j|[_ Hl']]; [done|]. rewrite Hl in Hl'. by injection Hl'.
      * intros k mt' Hk Hmk. apply Hacc'; [done|].
        intros i' n' Hl'. rewrite Hl in Hl'. injection Hl' as <- _. done.
Qed.

(** ** The theorems at work on the example designs *)

Ltac by_computation := vm_compute; first [reflexivity | discriminate].

Lemma duplication_step_witness :
  exists st1 st',
    write_phase ex_mem_1w3r ex_bram_1w2r = Ok (Some st1) /\
    round_start ex_mem_1w3r ex_bram_1w2r st1 [] st1 /\
    read_ports ex_mem_1w3r (Z.to_nat (RD_PORTS ex_mem_1w3r)) 0 st1 = Ok (FailedAt 2 st') /\
    try_growing_more_read_ports st' = true /\
    dup_count (grow_read_ports (prescan (make_portinfos ex_bram_1w2r))
                 (clock_domains st1) (clock_polarities st1) st') = dup_count st' + 1.
Proof.
  eexists. eexists.
  split; [vm_compute; reflexivity|].
  split; [constructor|].
  split; [vm_compute; reflexivity|].
  split; [reflexivity|].
  refine (proj1 (proj2 (duplication_step ex_mem_1w3r ex_bram_1w2r _ [] _ 2 _ 0%nat
                          _ (start_first _ _ _) _ _))).
  - vm_compute. reflexivity.
  - vm_compute. reflexivity.
  - reflexivity.
Defined.

Lemma waste_5x3_witness :
  SIZE ex_mem_5x3 = 5 /\ WIDTH ex_mem_5x3 = 3 /\
  b_abits ex_bram_1w1r = 2 /\ b_dbits ex_bram_1w1r = 4 /\
  wasted (cell_properties ex_mem_5x3) ex_bram_1w1r = Ok (3, 1, 13).
Proof.
  repeat (split; [reflexivity|]).
  exact (proj1 (waste_5x3 ex_mem_5x3 ex_bram_1w1r eq_refl eq_refl eq_refl eq_refl)).
Defined.

Lemma grid_instances_witness :
  0 <= WIDTH ex_mem_1w2r /\ 0 <= SIZE ex_mem_1w2r /\
  exists m',
    replace_cell 3 ex_mem_1w2r ex_bram_1w1r (ex_rule_any "RAM_1W1R") ex_module
      = Some (Ok (true, m')) /\
    exists st cs,
      assign_ports 3 ex_mem_1w2r ex_bram_1w1r = Some (Ok (Some st)) /\
      calls m' = calls ex_module ++ cs /\
      instances cs =
        (grid_d ← seqZ 0 (cdiv (WIDTH ex_mem_1w2r) (b_dbits ex_bram_1w1r));
         grid_a ← seqZ 0 (cdiv (SIZE ex_mem_1w2r) (Z.shiftl 1 (b_abits ex_bram_1w1r)));
         dupidx_ ← seqZ 0 (dup_count st);
         [(instance_name ex_mem_1w2r grid_d grid_a dupidx_, b_name ex_bram_1w1r)]) /\
      Z.of_nat (List.length (instances cs)) =
        cdiv (WIDTH ex_mem_1w2r) (b_dbits ex_bram_1w1r)
          * cdiv (SIZE ex_mem_1w2r) (Z.shiftl 1 (b_abits ex_bram_1w1r)) * dup_count st.
Proof.
  split; [by_computation|]. split; [by_computation|].
  eexists. split; [vm_compute; reflexivity|].
  apply (grid_instances 3 ex_mem_1w2r ex_bram_1w1r (ex_rule_any "RAM_1W1R") ex_module).
  - by_computation.
  - by_computation.
  - vm_compute. reflexivity.
Defined.

Lemma match_rule_verdict_witness :
  min_limits (ex_rule_any "RAM_1W1R") = [] /\ max_limits (ex_rule_any "RAM_1W1R") = [] /\
  check_rule (cell_properties ex_mem_5x3) (ex_rule_any "RAM_1W1R") = Ok Accepted.
Proof.
  split; [reflexivity|]. split; [reflexivity|].
  exact (proj1 (proj2 (match_rule_verdict (cell_properties ex_mem_5x3)
                         (ex_rule_any "RAM_1W1R"))) eq_refl eq_refl).
Defined.


(** C6 as stated fails: the second write port of the bram is not bound,
    its [clocks] is 1, and [clock_domains[1]] is the clock of the memory's
    write port, which is not the [sig_clock] of that PortInfo. *)
Lemma unbound_port_clock_domain :
  exists st pi,
    assign_ports 1 ex_mem_1w ex_bram_2w = Some (Ok (Some st)) /\
    pi ∈ portinfos st /\ 0 < clocks pi /\ mapped_port pi = -1 /\
    forall pol, clock_domains st !! clocks pi <> Some (sig_clock pi, pol).
Proof.
  eexists. exists (make_portinfo ex_bram_2w 0 1).
  split; [vm_compute; reflexivity|].
  split; [right; left|]. split; [by_computation|]. split; [reflexivity|].
  intros pol. vm_compute. discriminate.
Qed.

Lemma bound_ports_clock_domain_witness :
  exists st pi,
    assign_ports 3 ex_mem_1w2r ex_bram_1w1r = Some (Ok (Some st)) /\
    pi ∈ portinfos st /\ 0 <= mapped_port pi /\ 0 < clocks pi /\
    exists pol, effective_clkpol pi = Some pol /\
                clock_domains st !! clocks pi = Some (sig_clock pi, pol).
Proof.
  eexists. eexists.
  split; [vm_compute; reflexivity|].
  split; [do 3 right; left|]. split; [by_computation|]. split; [by_computation|].
  eapply (bound_ports_clock_domain 3 ex_mem_1w2r ex_bram_1w1r).
  - vm_compute. reflexivity.
  - do 3 right. left.
  - by_computation.
  - by_computation.
Defined.

Lemma port_assignment_terminates_witness :
  (Z.to_nat (RD_PORTS ex_mem_1w3r) < 4)%nat /\
  exists r, assign_ports 4 ex_mem_1w3r ex_bram_1w2r = Some r.
Proof.
  split; [by_computation|].
  destruct (proj1 (port_assignment_terminates ex_mem_1w3r ex_bram_1w2r)) as (r & Hr).
  exists r. apply Hr. simpl. lia.
Defined.

Lemma replace_cell_commit_witness :
  (exists m' grid dout,
     replace_cell 3 ex_mem_1w2r ex_bram_1w1r (ex_rule_any "RAM_1W1R") ex_module
       = Some (Ok (true, m')) /\
     calls m' = calls ex_module ++ grid ++ dout ++ [remove (name ex_mem_1w2r)] /\
     Forall grid_call grid /\
     instances grid = [("mem.0.0.0", "RAM_1W1R"); ("mem.0.0.1", "RAM_1W1R")] /\
     List.length dout = 2%nat) /\
  (replace_cell 3 ex_mem_1w2r ex_bram_1w2r (ex_rule_any "RAM_1W2R") ex_module
     = Some (Ok (false, ex_module)) /\
   assign_ports 3 ex_mem_1w2r ex_bram_1w2r = Some (Ok None)).
Proof.
  split.
  - assert (exists m', replace_cell 3 ex_mem_1w2r ex_bram_1w1r (ex_rule_any "RAM_1W1R")
                         ex_module = Some (Ok (true, m'))) as [m' H]
      by (eexists; vm_compute; reflexivity).
    destruct (replace_cell_commit 3 ex_mem_1w2r ex_bram_1w1r (ex_rule_any "RAM_1W1R")
                ex_module true m' H)
      as (st & m1 & cache & grid & dout & Hst & Hrun & _ & Hcalls & Hgrid & Hinst & Hdout & _).
    exists m', grid, dout. split; [exact H|]. split; [exact Hcalls|]. split; [exact Hgrid|].
    vm_compute in Hst. injection Hst as <-.
    vm_compute in Hrun. injection Hrun as _ <-.
    split.
    + rewrite Hinst by (vm_compute; discriminate). vm_compute. reflexivity.
    + apply Forall2_length in Hdout. rewrite <- Hdout. reflexivity.
  - split; [vm_compute; reflexivity|].
    refine (proj2 (replace_cell_commit 3 ex_mem_1w2r ex_bram_1w2r (ex_rule_any "RAM_1W2R")
                     ex_module false ex_module _)).
    vm_compute. reflexivity.
Defined.

Lemma rule_search_witness :
  exists m' log,
    handle_cell 3 ex_mem_1w2r
      (ex_rules [ex_rule_any "RAM_1W2R"; ex_rule_any "RAM_1W2R"; ex_rule_any "RAM_1W1R"])
      ex_module = Some (Ok (m', log)) /\
    attempts log = [(0, "RAM_1W2R"); (2, "RAM_1W1R")] /\
    NoDup (attempts log).*2.
Proof.
  eexists. eexists. split; [vm_compute; reflexivity|]. split; [reflexivity|].
  refine (proj1 (proj2 (rule_search 3 ex_mem_1w2r
            (ex_rules [ex_rule_any "RAM_1W2R"; ex_rule_any "RAM_1W2R"; ex_rule_any "RAM_1W1R"])
            ex_module _ _ _))).
  vm_compute. reflexivity.
Defined.

Lemma enable_zero_port_witness :
  enable (make_portinfo ex_bram_noen 0 0) = 0 /\
  exists pi',
    try_wr_port ex_mem_noen ex_bram_noen 0 true (ex_clk, true) true ∅ ∅
      (make_portinfo ex_bram_noen 0 0) = Ok (Some pi') /\
    sig_en pi' = [].
Proof.
  split; [reflexivity|]. eexists. split; [vm_compute; reflexivity|].
  refine (proj1 (proj2 (enable_zero_port ex_mem_noen ex_bram_noen 0 true (ex_clk, true) true
                          ∅ ∅ (make_portinfo ex_bram_noen 0 0) _ eq_refl _))).
  vm_compute. reflexivity.
Defined.
